(** * Structured document editor framework

    A shallow embedding of [structured_document_editor_framework.cpp]:
    the element tree (composite, decorators, image proxy), the renderer
    bridge, the flyweight format factory, the observable [Document] with
    its state objects, the command history and the flat iterator.

    Conventions of the embedding.
    - An object owned through [std::unique_ptr] is the value it holds; a
      nullable owning pointer is an [option].
    - C++ [int] is [Z]; the modelled code never does arithmetic on an
      [int], it only stores and prints it.
    - A member function that mutates its object returns the new object;
      whatever it calls on a renderer, writes to [std::cout] or sends to
      an observer is returned as a list of [Event]s, in program order.
    - Objects whose identity matters ([std::shared_ptr<CharacterFormat>],
      raw observer pointers, the addresses handed out by
      [std::make_unique] in [clone]) are natural-number addresses. *)

From stdpp Require Import base gmap strings list pretty.

Set Default Proof Using "Type".

(** ** Basic data *)

(** [std::to_string(int)]: decimal digits, a leading minus sign for
    negative numbers. *)
Definition to_string (n : Z) : string := pretty n.

(** The double-quote character used by the HTML renderer. *)
Definition dquote : string := String (Ascii.ascii_of_nat 34) EmptyString.

(** Address of a heap object. *)
Definition addr := nat.

(** ** [IRenderer]: the calls an element can make on a renderer *)

Inductive RenderCall : Type :=
| renderText (text : string) (bold italic : bool)
| renderImage (path : string)
| renderTable (rows cols : Z)
| startSection
| endSection.

(** A renderer is any object answering the five calls; [R] is its own
    state and every call returns the lines it wrote. *)
Class IRenderer (R : Type) : Type := {
  on_renderText : string -> bool -> bool -> R -> R * list string;
  on_renderImage : string -> R -> R * list string;
  on_renderTable : Z -> Z -> R -> R * list string;
  on_startSection : R -> R * list string;
  on_endSection : R -> R * list string
}.

Definition perform {R} `{IRenderer R} (c : RenderCall) (r : R) : R * list string :=
  match c with
  | renderText t b i => on_renderText t b i r
  | renderImage p => on_renderImage p r
  | renderTable rows cols => on_renderTable rows cols r
  | startSection => on_startSection r
  | endSection => on_endSection r
  end.

(** Running a sequence of calls against a renderer. *)
Fixpoint replay {R} `{IRenderer R} (cs : list RenderCall) (r : R) : R * list string :=
  match cs with
  | [] => (r, [])
  | c :: cs' =>
      let '(r1, out1) := perform c r in
      let '(r2, out2) := replay cs' r1 in
      (r2, out1 ++ out2)
  end.

Inductive ConsoleRenderer : Type := mkConsoleRenderer.
Inductive HTMLRenderer : Type := mkHTMLRenderer.

Definition console_prefix (bold italic : bool) : string :=
  (if bold then "[BOLD]" else EmptyString) +:+ (if italic then "[ITALIC]" else EmptyString).

#[export] Instance ConsoleRenderer_IRenderer : IRenderer ConsoleRenderer := {
  on_renderText text bold italic r := (r, [console_prefix bold italic +:+ " " +:+ text]);
  on_renderImage path r := (r, ["[IMAGE: " +:+ path +:+ "]"]);
  on_renderTable rows cols r :=
    (r, ["[TABLE: " +:+ to_string rows +:+ "x" +:+ to_string cols +:+ "]"]);
  on_startSection r := (r, ["--- Section Start ---"]);
  on_endSection r := (r, ["--- Section End ---"])
}.

Definition html_text (text : string) (bold italic : bool) : string :=
  let html := text in
  let html := if bold then "<strong>" +:+ html +:+ "</strong>" else html in
  let html := if italic then "<em>" +:+ html +:+ "</em>" else html in
  "<p>" +:+ html +:+ "</p>".

#[export] Instance HTMLRenderer_IRenderer : IRenderer HTMLRenderer := {
  on_renderText text bold italic r := (r, [html_text text bold italic]);
  on_renderImage path r := (r, ["<img src=" +:+ dquote +:+ path +:+ dquote +:+ " />"]);
  on_renderTable rows cols r :=
    (r, ["<table data-rows=" +:+ dquote +:+ to_string rows +:+ dquote
           +:+ " data-cols=" +:+ dquote +:+ to_string cols +:+ dquote +:+ "></table>"]);
  on_startSection r := (r, ["<section>"]);
  on_endSection r := (r, ["</section>"])
}.

(** ** The element tree *)

(** [DocumentElement] and its subclasses.  [format] is the shared pointer
    to an interned [CharacterFormat] (null by default).  [realImage] of an
    [ImageProxy] is the owned [Image], null until the first [draw]; an
    [Image] object is its [imagePath]. *)
#[local] Unset Elimination Schemes.
Inductive DocumentElement : Type :=
| Paragraph (content : string) (format : option addr)
| Image (imagePath : string)
| Table (rows cols : Z)
| Section (children : list DocumentElement) (sectionName : string)
| BoldDecorator (wrappedElement : DocumentElement)
| ItalicDecorator (wrappedElement : DocumentElement)
| ImageProxy (imagePath : string) (realImage : option string)
| ShapeAdapter (x y width height : Z).
#[local] Set Elimination Schemes.

(** [getType]: the decorators forward to the wrapped element, every other
    class returns its own constant. *)
Fixpoint getType (e : DocumentElement) : string :=
  match e with
  | Paragraph _ _ => "Paragraph"
  | Image _ => "Image"
  | Table _ _ => "Table"
  | Section _ _ => "Section"
  | BoldDecorator w => getType w
  | ItalicDecorator w => getType w
  | ImageProxy _ _ => "ImageProxy"
  | ShapeAdapter _ _ _ _ => "Shape"
  end.

(** [Section::add]: [children.push_back]. *)
Definition Section_add (children : list DocumentElement) (el : DocumentElement)
  : list DocumentElement := children ++ [el].

(** [clone].  [Paragraph], [Image] and [Table] copy-construct (the format
    pointer is copied, not the format); [Section::clone] starts from an
    empty section of the same name and adds the clone of every child in
    turn; a decorator wraps the clone of what it wraps; [ImageProxy::clone]
    builds a new proxy from the path alone. *)
Fixpoint clone (e : DocumentElement) : DocumentElement :=
  match e with
  | Paragraph c f => Paragraph c f
  | Image p => Image p
  | Table r c => Table r c
  | Section ch name =>
      Section (fold_left (fun newSection child => Section_add newSection (clone child)) ch []) name
  | BoldDecorator w => BoldDecorator (clone w)
  | ItalicDecorator w => ItalicDecorator (clone w)
  | ImageProxy p _ => ImageProxy p None
  | ShapeAdapter x y w h => ShapeAdapter x y w h
  end.

(** ** Document states *)

Inductive DocumentState : Type :=
| DraftState
| ReviewState
| PublishedState.

Definition getStateName (s : DocumentState) : string :=
  match s with
  | DraftState => "Draft"
  | ReviewState => "Review"
  | PublishedState => "Published"
  end.

(** ** The document *)

(** A [Section] object on its own (the root section is one). *)
Record SectionObj : Type := mkSection {
  children : list DocumentElement;
  sectionName : string
}.

Definition as_element (s : SectionObj) : DocumentElement :=
  Section (children s) (sectionName s).

(** [observers] holds raw [IDocumentObserver*] pointers in the order of
    the [attach] calls. *)
Record Document : Type := mkDocument {
  rootSection : SectionObj;
  observers : list addr;
  currentState : DocumentState;
  pageSize : string;
  marginTop : Z;
  marginBottom : Z;
  marginLeft : Z;
  marginRight : Z;
  header : string;
  footer : string
}.

(** ** Events *)

(** What the modelled code does to the outside, in program order:
    - [EvCall c]: the call [c] on the [IRenderer] passed to [draw];
    - [EvPrint l]: the line [l] written to [std::cout] by the framework
      itself (not by a renderer);
    - [EvMakeImage p]: [ImageProxy::loadImage] constructing the real
      [Image] for path [p];
    - [EvChanged o d]: [o->onDocumentChanged(this)], with the document
      as the observer sees it. *)
Inductive Event : Type :=
| EvCall (c : RenderCall)
| EvPrint (line : string)
| EvMakeImage (path : string)
| EvChanged (observer : addr) (doc : Document).

(** The renderer calls of a trace. *)
Fixpoint backend_calls (t : list Event) : list RenderCall :=
  match t with
  | [] => []
  | EvCall c :: t' => c :: backend_calls t'
  | _ :: t' => backend_calls t'
  end.

(** The number of image materialisations in a trace. *)
Fixpoint materializations (t : list Event) : nat :=
  match t with
  | [] => 0
  | EvMakeImage _ :: t' => S (materializations t')
  | _ :: t' => materializations t'
  end.

(** ** Drawing *)

(** [ImageProxy::loadImage]: builds the [Image] when [realImage] is null
    and leaves it alone otherwise; returns the (now non-null) image. *)
Definition loadImage (imagePath : string) (realImage : option string)
  : string * list Event :=
  match realImage with
  | None =>
      (imagePath, [EvPrint ("[Proxy] Loading image: " +:+ imagePath); EvMakeImage imagePath])
  | Some img => (img, [])
  end.

(** [LegacyShapeDrawer::drawRectangle]. *)
Definition drawRectangle (x y width height : Z) : list Event :=
  [EvPrint ("[Legacy] Drawing rectangle at (" +:+ to_string x +:+ "," +:+ to_string y
            +:+ ") size: " +:+ to_string width +:+ "x" +:+ to_string height)].

(** [draw(renderer)].  Only [ImageProxy::draw] changes its object, so the
    element is returned along with the trace.  A decorator tests its
    wrapped element with [dynamic_cast<Paragraph*>]: on a paragraph it
    calls [renderText] with its own flag, on anything else it forwards
    [draw]. *)
Fixpoint draw (e : DocumentElement) : DocumentElement * list Event :=
  match e with
  | Paragraph content _ => (e, [EvCall (renderText content false false)])
  | Image path => (e, [EvCall (renderImage path)])
  | Table rows cols => (e, [EvCall (renderTable rows cols)])
  | Section ch name =>
      let '(ch', t) :=
        (fix draw_each (l : list DocumentElement) : list DocumentElement * list Event :=
           match l with
           | [] => ([], [])
           | child :: rest =>
               let '(child', t1) := draw child in
               let '(rest', t2) := draw_each rest in
               (child' :: rest', t1 ++ t2)
           end) ch in
      (Section ch' name, EvCall startSection :: t ++ [EvCall endSection])
  | BoldDecorator w =>
      match w with
      | Paragraph content _ => (e, [EvCall (renderText content true false)])
      | _ => let '(w', t) := draw w in (BoldDecorator w', t)
      end
  | ItalicDecorator w =>
      match w with
      | Paragraph content _ => (e, [EvCall (renderText content false true)])
      | _ => let '(w', t) := draw w in (ItalicDecorator w', t)
      end
  | ImageProxy path real =>
      let '(img, t) := loadImage path real in
      (ImageProxy path (Some img), t ++ [EvCall (renderImage img)])
  | ShapeAdapter x y w h =>
      (e, EvPrint "[Adapter] Adapting legacy shape to modern interface..."
            :: drawRectangle x y w h)
  end.

(** The loop of [Section::draw] over its children. *)
Fixpoint draw_children (l : list DocumentElement) : list DocumentElement * list Event :=
  match l with
  | [] => ([], [])
  | child :: rest =>
      let '(child', t1) := draw child in
      let '(rest', t2) := draw_children rest in
      (child' :: rest', t1 ++ t2)
  end.

(** [Section::draw] on a section object. *)
Definition Section_draw (s : SectionObj) : SectionObj * list Event :=
  let '(ch', t) := draw_children (children s) in
  (mkSection ch' (sectionName s), EvCall startSection :: t ++ [EvCall endSection]).

(** An element whose image proxies, where loaded, hold the image of their
    own path: the only state [loadImage] can produce. *)
Fixpoint cache_consistent (e : DocumentElement) : Prop :=
  match e with
  | Section ch _ =>
      (fix all (l : list DocumentElement) : Prop :=
         match l with
         | [] => True
         | child :: rest => cache_consistent child /\ all rest
         end) ch
  | BoldDecorator w => cache_consistent w
  | ItalicDecorator w => cache_consistent w
  | ImageProxy path (Some img) => img = path
  | _ => True
  end.

(** ** Document operations *)

(** [Document::setState]. *)
Definition setState (state : DocumentState) (d : Document) : Document * list Event :=
  (mkDocument (rootSection d) (observers d) state (pageSize d)
     (marginTop d) (marginBottom d) (marginLeft d) (marginRight d) (header d) (footer d),
   [EvPrint ("[State] Document state changed to: " +:+ getStateName state)]).

(** [Document::Document()]: an empty root section named Root, A4 with
    margins of 20, then [setState] to a new [DraftState]. *)
Definition Document_new : Document * list Event :=
  setState DraftState
    (mkDocument (mkSection [] "Root") [] DraftState "A4" 20 20 20 20 EmptyString EmptyString).

(** [Document::edit]: the notice of the current state object. *)
Definition edit (d : Document) : list Event :=
  match currentState d with
  | DraftState => [EvPrint "[State] Editing in Draft mode - all changes allowed"]
  | ReviewState => [EvPrint "[State] Document in Review - limited editing allowed"]
  | PublishedState => [EvPrint "[State] Document is Published - editing locked!"]
  end.

(** [Document::attach] and [Document::detach] ([std::remove] drops every
    occurrence of the pointer). *)
Definition attach (observer : addr) (d : Document) : Document :=
  mkDocument (rootSection d) (observers d ++ [observer]) (currentState d) (pageSize d)
    (marginTop d) (marginBottom d) (marginLeft d) (marginRight d) (header d) (footer d).

Definition detach (observer : addr) (d : Document) : Document :=
  mkDocument (rootSection d) (filter (fun o => o <> observer) (observers d))
    (currentState d) (pageSize d)
    (marginTop d) (marginBottom d) (marginLeft d) (marginRight d) (header d) (footer d).

(** [Document::notifyObservers]: one [onDocumentChanged(this)] per entry
    of [observers], front to back.  Observers are taken to read the
    document only, as [StatusBar] does. *)
Fixpoint notify_each (os : list addr) (d : Document) : list Event :=
  match os with
  | [] => []
  | o :: os' => EvChanged o d :: notify_each os' d
  end.

Definition notifyObservers (d : Document) : list Event := notify_each (observers d) d.

(** [Document::addElement]: [rootSection->add] then [notifyObservers]. *)
Definition addElement (element : DocumentElement) (d : Document) : Document * list Event :=
  let d' :=
    mkDocument (mkSection (Section_add (children (rootSection d)) element)
                  (sectionName (rootSection d)))
      (observers d) (currentState d) (pageSize d)
      (marginTop d) (marginBottom d) (marginLeft d) (marginRight d) (header d) (footer d) in
  (d', notifyObservers d').

(** [Document::draw]. *)
Definition Document_draw (d : Document) : Document * list Event :=
  let '(root', t) := Section_draw (rootSection d) in
  (mkDocument root' (observers d) (currentState d) (pageSize d)
     (marginTop d) (marginBottom d) (marginLeft d) (marginRight d) (header d) (footer d), t).

(** ** Commands *)

Module Command.
(** The [Command] interface: [execute] and [undo] act on the command
    object and on the world [W] it points into. *)
Class Interface (W C : Type) : Type := {
  execute : C -> W -> C * W * list Event;
  undo : C -> W -> C * W * list Event
}.
End Command.

Module AddElementCommand.
(** [document] is the world the command acts on; the two owning pointers
    are nullable. *)
Record t : Type := mk {
  element : option DocumentElement;
  clonedElement : option DocumentElement;
  executed : bool
}.

(** The constructor: [element] as given, no clone yet, not executed. *)
Definition make (el : option DocumentElement) : t := mk el None false.

(** [execute].  [std::move(element)] into [addElement] leaves [element]
    null in both branches. *)
Definition execute (c : t) (document : Document) : t * Document * list Event :=
  if executed c then (c, document, [])
  else
    let notice := EvPrint "[Command] Executing: Add Element" in
    match element c with
    | Some el =>
        let cloned := clone el in
        let '(document', tr) := addElement el document in
        (mk None (Some cloned) true, document', notice :: tr)
    | None =>
        match clonedElement c with
        | Some cloned =>
            let el := clone cloned in
            let '(document', tr) := addElement el document in
            (mk None (Some cloned) true, document', notice :: tr)
        | None => (mk None None true, document, [notice])
        end
    end.

(** [undo]: only the flag changes. *)
Definition undo (c : t) (document : Document) : t * Document * list Event :=
  (mk (element c) (clonedElement c) false, document,
   [EvPrint "[Command] Undoing: Add Element (simplified - not removing)"]).

#[global] Instance command : Command.Interface Document t := {
  Command.execute := execute;
  Command.undo := undo
}.
End AddElementCommand.

Module CommandHistory.
(** The two [std::stack]s, top first. *)
Record t (C : Type) : Type := mk {
  undoStack : list C;
  redoStack : list C
}.
Arguments mk {C} _ _.
Arguments undoStack {C} _.
Arguments redoStack {C} _.

Definition empty {C : Type} : t C := mk [] [].

(** [while (!redoStack.empty()) redoStack.pop();] *)
Fixpoint pop_all {C : Type} (s : list C) : list C :=
  match s with
  | [] => []
  | _ :: s' => pop_all s'
  end.

Section Operations.
Context {W C : Type} `{Command.Interface W C}.

Definition executeCommand (cmd : C) (h : t C) (w : W) : t C * W * list Event :=
  let '(cmd', w', tr) := Command.execute cmd w in
  (mk (cmd' :: undoStack h) (pop_all (redoStack h)), w', tr).

Definition undo (h : t C) (w : W) : t C * W * list Event :=
  match undoStack h with
  | cmd :: rest =>
      let '(cmd', w', tr) := Command.undo cmd w in
      (mk rest (cmd' :: redoStack h), w', tr)
  | [] => (h, w, [EvPrint "[Command] Nothing to undo"])
  end.

Definition redo (h : t C) (w : W) : t C * W * list Event :=
  match redoStack h with
  | cmd :: rest =>
      let '(cmd', w', tr) := Command.execute cmd w in
      (mk (cmd' :: undoStack h) rest, w', tr)
  | [] => (h, w, [EvPrint "[Command] Nothing to redo"])
  end.
End Operations.
End CommandHistory.

(** ** The flat iterator *)

Module DocumentIterator.
(** [elements] holds one pointer per collected element; the model keeps
    the element each pointer designates. *)
Record t : Type := mk {
  elements : list DocumentElement;
  position : nat
}.

(** One turn of the loop in [collectElements]: push the child and, when
    the [dynamic_cast<Section*>] succeeds, collect below it. *)
Fixpoint collect_child (child : DocumentElement) (elements : list DocumentElement)
  : list DocumentElement :=
  let elements := elements ++ [child] in
  match child with
  | Section ch _ =>
      (fix each (l : list DocumentElement) (acc : list DocumentElement) :=
         match l with
         | [] => acc
         | c :: rest => each rest (collect_child c acc)
         end) ch elements
  | _ => elements
  end.

Definition collectElements (section : SectionObj) (elements : list DocumentElement)
  : list DocumentElement :=
  fold_left (fun acc child => collect_child child acc) (children section) elements.

(** The constructor: position 0 and the elements collected from the
    root section. *)
Definition make (doc : Document) : t := mk (collectElements (rootSection doc) []) 0.

Definition hasNext (it : t) : bool := bool_decide (position it < length (elements it)).

(** [next]: [None] is the null pointer. *)
Definition next (it : t) : option DocumentElement * t :=
  if hasNext it
  then (elements it !! position it, mk (elements it) (S (position it)))
  else (None, it).

Definition reset (it : t) : t := mk (elements it) 0.

(** [n] successive calls of [next], with their results in order. *)
Fixpoint take_next (n : nat) (it : t) : list (option DocumentElement) * t :=
  match n with
  | 0 => ([], it)
  | S n' =>
      let '(r, it1) := next it in
      let '(rs, it2) := take_next n' it1 in
      (r :: rs, it2)
  end.
End DocumentIterator.

(** ** The flyweight format factory *)

Record CharacterFormat : Type := mkCharacterFormat {
  fontName : string;
  fontSize : Z;
  color : string
}.

Module CharacterFormatFactory.
(** [formats] maps a key to the shared pointer stored for it.  [made] is
    the list of [CharacterFormat] objects built by [std::make_shared] so
    far; a shared pointer is the index of its object in [made], so two
    pointers are the same instance exactly when they are equal. *)
Record t : Type := mk {
  formats : gmap string addr;
  made : list CharacterFormat
}.

Definition empty : t := mk ∅ [].

Definition getKey (font : string) (size : Z) (color : string) : string :=
  font +:+ "_" +:+ to_string size +:+ "_" +:+ color.

(** [getFormat]: on a key not found, a new object is made and stored
    under the key; the pointer stored under the key is returned. *)
Definition getFormat (font : string) (size : Z) (color : string) (f : t)
  : addr * t * list Event :=
  let key := getKey font size color in
  match formats f !! key with
  | None =>
      let p := length (made f) in
      (p, mk (<[key := p]> (formats f)) (made f ++ [mkCharacterFormat font size color]),
       [EvPrint ("[Flyweight] Created new format: " +:+ key)])
  | Some p => (p, f, [])
  end.

(** The object a shared pointer designates. *)
Definition deref (f : t) (p : addr) : option CharacterFormat := made f !! p.
End CharacterFormatFactory.

(** ** Elements with their addresses *)

(** The same tree with the address of every object written on it, to
    speak about which objects two trees have in common.  A tree owns its
    nodes through [std::unique_ptr]; a [CharacterFormat] is held through a
    [std::shared_ptr] and is not owned.  [std::make_unique] is modelled by
    a counter [next]: it returns [next], an address no live object has,
    and moves the counter on. *)
Module Placed.
#[local] Unset Elimination Schemes.
Inductive t : Type :=
| Paragraph_at (self : addr) (content : string) (format : option addr)
| Image_at (self : addr) (imagePath : string)
| Table_at (self : addr) (rows cols : Z)
| Section_at (self : addr) (children : list t) (sectionName : string)
| BoldDecorator_at (self : addr) (wrappedElement : t)
| ItalicDecorator_at (self : addr) (wrappedElement : t)
| ImageProxy_at (self : addr) (imagePath : string) (realImage : option (addr * string))
| ShapeAdapter_at (self : addr) (x y width height : Z).
#[local] Set Elimination Schemes.

(** Forgetting the addresses. *)
Fixpoint erase (o : t) : DocumentElement :=
  match o with
  | Paragraph_at _ c f => Paragraph c f
  | Image_at _ p => Image p
  | Table_at _ r c => Table r c
  | Section_at _ ch name => Section (map erase ch) name
  | BoldDecorator_at _ w => BoldDecorator (erase w)
  | ItalicDecorator_at _ w => ItalicDecorator (erase w)
  | ImageProxy_at _ p real => ImageProxy p (snd <$> real)
  | ShapeAdapter_at _ x y w h => ShapeAdapter x y w h
  end.

(** The addresses of all objects the tree owns, itself first. *)
Fixpoint owned (o : t) : list addr :=
  match o with
  | Paragraph_at a _ _ => [a]
  | Image_at a _ => [a]
  | Table_at a _ _ => [a]
  | Section_at a ch _ => a :: flat_map owned ch
  | BoldDecorator_at a w => a :: owned w
  | ItalicDecorator_at a w => a :: owned w
  | ImageProxy_at a _ real => a :: match real with Some (b, _) => [b] | None => [] end
  | ShapeAdapter_at a _ _ _ _ => [a]
  end.

(** The format pointers held in the tree, left to right. *)
Fixpoint format_pointers (o : t) : list addr :=
  match o with
  | Paragraph_at _ _ (Some f) => [f]
  | Section_at _ ch _ => flat_map format_pointers ch
  | BoldDecorator_at _ w => format_pointers w
  | ItalicDecorator_at _ w => format_pointers w
  | _ => []
  end.

(** [clone] with its allocations.  A leaf is one [make_unique];
    [Section::clone] makes the new section first and then clones the
    children in order; a decorator clones what it wraps first, as the
    argument of its own [make_unique]. *)
Fixpoint clone (o : t) (next : addr) : t * addr :=
  match o with
  | Paragraph_at _ c f => (Paragraph_at next c f, S next)
  | Image_at _ p => (Image_at next p, S next)
  | Table_at _ r c => (Table_at next r c, S next)
  | Section_at _ ch name =>
      let '(ch', next') :=
        (fix each (l : list t) (acc : list t) (n : addr) : list t * addr :=
           match l with
           | [] => (acc, n)
           | child :: rest =>
               let '(child', n1) := clone child n in
               each rest (acc ++ [child']) n1
           end) ch [] (S next) in
      (Section_at next ch' name, next')
  | BoldDecorator_at _ w =>
      let '(w', n1) := clone w next in (BoldDecorator_at n1 w', S n1)
  | ItalicDecorator_at _ w =>
      let '(w', n1) := clone w next in (ItalicDecorator_at n1 w', S n1)
  | ImageProxy_at _ p _ => (ImageProxy_at next p None, S next)
  | ShapeAdapter_at _ x y w h => (ShapeAdapter_at next x y w h, S next)
  end.

(** The loop of [Section::clone]. *)
Fixpoint clone_children (l : list t) (acc : list t) (n : addr) : list t * addr :=
  match l with
  | [] => (acc, n)
  | child :: rest =>
      let '(child', n1) := clone child n in
      clone_children rest (acc ++ [child']) n1
  end.
End Placed.

(** ** Counting nodes *)

Definition sum_list (l : list nat) : nat := foldr Nat.add 0 l.

(** Every element object of a tree: a section with all its descendants,
    a decorator with what it wraps. *)
Fixpoint count_nodes (e : DocumentElement) : nat :=
  match e with
  | Section ch _ => S (sum_list (map count_nodes ch))
  | BoldDecorator w => S (count_nodes w)
  | ItalicDecorator w => S (count_nodes w)
  | _ => 1
  end.

(** The element itself and what lies below it through sections only. *)
Fixpoint count_listed (e : DocumentElement) : nat :=
  match e with
  | Section ch _ => S (sum_list (map count_listed ch))
  | _ => 1
  end.

(** The nodes below the root section that are reached through sections
    only; the root itself is not counted. *)
Definition listed_below (root : SectionObj) : nat :=
  sum_list (map count_listed (children root)).

(** The nodes of a tree that lie inside a decorator. *)
Fixpoint count_wrapped (e : DocumentElement) : nat :=
  match e with
  | Section ch _ => sum_list (map count_wrapped ch)
  | BoldDecorator w => count_nodes w
  | ItalicDecorator w => count_nodes w
  | _ => 0
  end.

(** The pre-order listing of an element and of what lies below it
    through sections only. *)
Fixpoint listing (e : DocumentElement) : list DocumentElement :=
  e :: match e with
       | Section ch _ => flat_map listing ch
       | _ => []
       end.

(** The number of non-null results among the first [n] calls of [next]. *)
Definition yielded (n : nat) (it : DocumentIterator.t) : nat :=
  length (omap id (fst (DocumentIterator.take_next n it))).

(** ** Composite runs *)

(** [draw] on a renderer object: the calls of the trace replayed on it. *)
Definition draw_on {R} `{IRenderer R} (e : DocumentElement) (r : R) : R * list string :=
  replay (backend_calls (snd (draw e))) r.

(** [n] successive [draw]s of the same element, with the whole trace. *)
Fixpoint draw_times (n : nat) (e : DocumentElement) : DocumentElement * list Event :=
  match n with
  | 0 => (e, [])
  | S n' =>
      let '(e1, t1) := draw e in
      let '(e2, t2) := draw_times n' e1 in
      (e2, t1 ++ t2)
  end.

(** [history.executeCommand(make_unique<AddElementCommand>(doc, X));
    history.undo(); history.redo();] on a new history, as in [main];
    the document afterwards. *)
Definition add_undo_redo (doc : Document) (X : DocumentElement) : Document :=
  let '(h1, d1, _) :=
    CommandHistory.executeCommand (AddElementCommand.make (Some X)) CommandHistory.empty doc in
  let '(h2, d2, _) := CommandHistory.undo h1 d1 in
  let '(_, d3, _) := CommandHistory.redo h2 d2 in
  d3.

(** ** Statements used below *)

(** What one [clone] at counter [n] gives: the clone of the plain tree,
    made only of addresses from [n] up to the new counter, each used
    once, holding the format pointers of the original. *)
Definition clone_fresh (o : Placed.t) : Prop :=
  forall n : addr,
    Placed.erase (fst (Placed.clone o n)) = clone (Placed.erase o)
    /\ n < snd (Placed.clone o n)
    /\ Forall (fun a => n <= a < snd (Placed.clone o n)) (Placed.owned (fst (Placed.clone o n)))
    /\ NoDup (Placed.owned (fst (Placed.clone o n)))
    /\ Placed.format_pointers (fst (Placed.clone o n)) = Placed.format_pointers o.

(** Any run of further requests on the factory. *)
Fixpoint getFormats (reqs : list (string * Z * string)) (f : CharacterFormatFactory.t)
  : CharacterFormatFactory.t :=
  match reqs with
  | [] => f
  | (font, size, color) :: reqs' =>
      getFormats reqs' (snd (fst (CharacterFormatFactory.getFormat font size color f)))
  end.

(** A factory as reached from the empty one: every stored pointer
    designates a made object and no two keys store the same pointer. *)
Definition factory_wf (f : CharacterFormatFactory.t) : Prop :=
  (forall k p, CharacterFormatFactory.formats f !! k = Some p ->
               p < length (CharacterFormatFactory.made f))
  /\ (forall k1 k2 p, CharacterFormatFactory.formats f !! k1 = Some p ->
                      CharacterFormatFactory.formats f !! k2 = Some p -> k1 = k2).

(** A placed tree to try things on: a section at address 0 with a
    formatted paragraph, a bold paragraph and a loaded image proxy. *)
Definition chapter_placed : Placed.t :=
  Placed.Section_at 0
    [Placed.Paragraph_at 1 "Chapter 1 content" (Some 0);
     Placed.BoldDecorator_at 3 (Placed.Paragraph_at 2 "Bold text" None);
     Placed.ImageProxy_at 4 "photo.jpg" (Some (5, "photo.jpg"))]
    "Chapter 1".

(** ** Visitors *)

(** The [IDocumentVisitor] interface.  Every method receives the object
    visited, given here by its fields; [V] is the visitor's own state.
    Visitors are taken to read the elements only, as the two visitors of
    the framework do. *)
Class IDocumentVisitor (V : Type) : Type := {
  visitParagraph : string -> option addr -> V -> V;
  visitImage : string -> V -> V;
  visitTable : Z -> Z -> V -> V;
  visitSection : list DocumentElement -> string -> V -> V;
  visitImageProxy : string -> option string -> V -> V
}.

(** [accept(visitor)].  A section visits itself and then has every child
    accept the visitor, in order; a decorator hands the visitor to what it
    wraps; [ShapeAdapter::accept] does nothing. *)
Fixpoint accept {V} `{IDocumentVisitor V} (e : DocumentElement) (v : V) : V :=
  match e with
  | Paragraph content format => visitParagraph content format v
  | Image path => visitImage path v
  | Table rows cols => visitTable rows cols v
  | Section ch name =>
      fold_left (fun visitor child => accept child visitor) ch (visitSection ch name v)
  | BoldDecorator w => accept w v
  | ItalicDecorator w => accept w v
  | ImageProxy path real => visitImageProxy path real v
  | ShapeAdapter _ _ _ _ => v
  end.

(** *** Reading words from a string *)

(** [std::isspace] in the C locale: space and the characters 9 to 13. *)
Definition isspace (c : Ascii.ascii) : bool :=
  let n := Ascii.nat_of_ascii c in
  Nat.eqb n 32 || (Nat.leb 9 n && Nat.leb n 13).

(** [iss >> word]: skip the leading white space, then take characters up
    to the next white space or the end.  The extraction fails when no
    character is left after the skip. *)
Fixpoint skip_ws (s : string) : string :=
  match s with
  | EmptyString => EmptyString
  | String c s' => if isspace c then skip_ws s' else s
  end.

Fixpoint take_word (s : string) : string * string :=
  match s with
  | EmptyString => (EmptyString, EmptyString)
  | String c s' =>
      if isspace c then (EmptyString, s)
      else let '(w, rest) := take_word s' in (String c w, rest)
  end.

Definition extract_word (s : string) : option (string * string) :=
  match skip_ws s with
  | EmptyString => None
  | String c s' => Some (take_word (String c s'))
  end.

(** [while (iss >> word) wordCount++;] with the stream holding [s]; every
    turn consumes at least one character, so [fuel] above the length of
    [s] is never used up. *)
Fixpoint count_loop (fuel : nat) (s : string) (wordCount : Z) : Z :=
  match fuel with
  | 0 => wordCount
  | S fuel' =>
      match extract_word s with
      | None => wordCount
      | Some (_, rest) => count_loop fuel' rest (wordCount + 1)
      end
  end.

Definition count_words_into (content : string) (wordCount : Z) : Z :=
  count_loop (S (String.length content)) content wordCount.

Module WordCountVisitor.
Record t : Type := mk { wordCount : Z }.

(** The constructor. *)
Definition make : t := mk 0.

#[global] Instance visitor : IDocumentVisitor t := {
  visitParagraph content _ v := mk (count_words_into content (wordCount v));
  visitImage _ v := v;
  visitTable _ _ v := v;
  visitSection _ _ v := v;
  visitImageProxy _ _ v := v
}.

Definition getWordCount (v : t) : Z := wordCount v.
End WordCountVisitor.

(** [std::string(n, ' ')]. *)
Fixpoint spaces (n : nat) : string :=
  match n with
  | 0 => EmptyString
  | S n' => String (Ascii.ascii_of_nat 32) (spaces n')
  end.

Module XMLExportVisitor.
(** [xml] is the text written so far, one entry per line. *)
Record t : Type := mk {
  xml : list string;
  depth : Z
}.

Definition indent (v : t) : string := spaces (Z.to_nat (depth v * 2)).

(** The constructor: depth 0 and the XML declaration. *)
Definition make : t :=
  mk ["<?xml version=" +:+ dquote +:+ "1.0" +:+ dquote +:+ "?>"] 0.

#[global] Instance visitor : IDocumentVisitor t := {
  visitParagraph content _ v :=
    mk (xml v ++ [indent v +:+ "<paragraph>" +:+ content +:+ "</paragraph>"]) (depth v);
  visitImage path v :=
    mk (xml v ++ [indent v +:+ "<image src=" +:+ dquote +:+ path +:+ dquote +:+ " />"])
       (depth v);
  visitTable _ _ v := mk (xml v ++ [indent v +:+ "<table />"]) (depth v);
  visitSection _ _ v := mk (xml v ++ [indent v +:+ "<section>"]) (depth v + 1);
  visitImageProxy _ _ v := mk (xml v ++ [indent v +:+ "<image-proxy />"]) (depth v)
}.

Definition getXML (v : t) : list string := xml v.
End XMLExportVisitor.

(** ** The status bar *)

Module StatusBar.
Record t : Type := mk {
  wordCount : Z;
  elementCount : Z
}.

(** The constructor. *)
Definition make : t := mk 0 0.

(** One turn of the loop in [countElements]: count the child, count its
    words when the cast to [Paragraph] succeeds, and count below it when
    the cast to [Section] succeeds. *)
Fixpoint count_child (child : DocumentElement) (s : t) : t :=
  let s := mk (wordCount s) (elementCount s + 1) in
  let s :=
    match child with
    | Paragraph content _ => mk (count_words_into content (wordCount s)) (elementCount s)
    | _ => s
    end in
  match child with
  | Section ch _ => fold_left (fun acc c => count_child c acc) ch s
  | _ => s
  end.

Definition countElements (section : SectionObj) (s : t) : t :=
  fold_left (fun acc c => count_child c acc) (children section) s.

(** [onDocumentChanged]: both counters start again from 0. *)
Definition onDocumentChanged (doc : Document) (s : t) : t * list Event :=
  let s := mk 0 0 in
  let s := countElements (rootSection doc) s in
  (s, [EvPrint ("[StatusBar] Elements: " +:+ to_string (elementCount s)
                +:+ " | Words: " +:+ to_string (wordCount s))]).
End StatusBar.

(** ** The validator *)

Module DocumentValidator.
(** The three steps of [validate]; a subclass supplies [checkSpelling]
    and [checkGrammar] and may replace [checkStructure]. *)
Class Checks (V : Type) : Type := {
  checkStructure : V -> V * bool * list Event;
  checkSpelling : V -> V * bool * list Event;
  checkGrammar : V -> V * bool * list Event
}.

(** [DocumentValidator::checkStructure], the default. *)
Definition default_checkStructure {V : Type} (v : V) : V * bool * list Event :=
  (v, true, [EvPrint "[Validator] Checking structure... OK"]).

Definition validate {V} `{Checks V} (v : V) : V * bool * list Event :=
  let start := EvPrint "[Validator] Starting validation..." in
  let '(v1, ok1, t1) := checkStructure v in
  if negb ok1 then (v1, false, start :: t1)
  else
    let '(v2, ok2, t2) := checkSpelling v1 in
    if negb ok2 then (v2, false, start :: t1 ++ t2)
    else
      let '(v3, ok3, t3) := checkGrammar v2 in
      if negb ok3 then (v3, false, start :: t1 ++ t2 ++ t3)
      else (v3, true, start :: t1 ++ t2 ++ t3 ++ [EvPrint "[Validator] Validation passed!"]).
End DocumentValidator.

Inductive BasicValidator : Type := mkBasicValidator.
Inductive AdvancedValidator : Type := mkAdvancedValidator.

#[global] Instance BasicValidator_checks : DocumentValidator.Checks BasicValidator := {
  DocumentValidator.checkStructure := DocumentValidator.default_checkStructure;
  DocumentValidator.checkSpelling v := (v, true, [EvPrint "[Validator] Basic spell check... OK"]);
  DocumentValidator.checkGrammar v := (v, true, [EvPrint "[Validator] Basic grammar check... OK"])
}.

#[global] Instance AdvancedValidator_checks : DocumentValidator.Checks AdvancedValidator := {
  DocumentValidator.checkStructure := DocumentValidator.default_checkStructure;
  DocumentValidator.checkSpelling v :=
    (v, true, [EvPrint "[Validator] Advanced spell check with dictionary... OK"]);
  DocumentValidator.checkGrammar v :=
    (v, true, [EvPrint "[Validator] Advanced grammar check with AI... OK"])
}.

(** ** The chain of event handlers *)

Module EventHandler.
(** [EventHandler] itself and its two subclasses. *)
Inductive Kind : Type :=
| Plain
| ClickHandler
| KeyPressHandler.

(** A handler object: its class and its [nextHandler] pointer. *)
Record t : Type := mk {
  kind : Kind;
  nextHandler : option addr
}.

(** The constructor leaves [nextHandler] null. *)
Definition make (k : Kind) : t := mk k None.

Definition setNext (next : option addr) (h : t) : t := mk (kind h) next.

(** How a call of [handleEvent] ends: it returns having written [tr], it
    follows a pointer to no handler, or it is still running when the
    fuel is used up. *)
Inductive Run : Type :=
| Returned (tr : list Event)
| Dangling
| Unfinished.

(** The event a class handles itself, with the line it writes. *)
Definition handled_by (k : Kind) (event : string) : option string :=
  match k with
  | Plain => None
  | ClickHandler =>
      if String.eqb event "click" then Some "[Chain] Click handled!" else None
  | KeyPressHandler =>
      if String.eqb event "keypress" then Some "[Chain] Keypress handled!" else None
  end.

(** [handleEvent] on the handler at [h]: a subclass writes its line on
    its own event; otherwise [EventHandler::handleEvent] passes the event
    to [nextHandler] when there is one.  One unit of fuel per call. *)
Fixpoint handleEvent (fuel : nat) (heap : gmap addr t) (h : addr) (event : string) : Run :=
  match fuel with
  | 0 => Unfinished
  | S fuel' =>
      match heap !! h with
      | None => Dangling
      | Some obj =>
          match handled_by (kind obj) event with
          | Some line => Returned [EvPrint line]
          | None =>
              match nextHandler obj with
              | Some next => handleEvent fuel' heap next event
              | None => Returned []
              end
          end
      end
  end.
End EventHandler.

(** ** The document builder *)

(** [Document::setProperties]. *)
Definition setProperties (ps : string) (mt mb ml mr : Z) (h f : string) (d : Document)
  : Document :=
  mkDocument (rootSection d) (observers d) (currentState d) ps mt mb ml mr h f.

Module DocumentBuilder.
Record t : Type := mk {
  pageSize : string;
  marginTop : Z;
  marginBottom : Z;
  marginLeft : Z;
  marginRight : Z;
  header : string;
  footer : string
}.

(** The constructor. *)
Definition make : t := mk "A4" 20 20 20 20 EmptyString EmptyString.

Definition setPageSize (size : string) (b : t) : t :=
  mk size (marginTop b) (marginBottom b) (marginLeft b) (marginRight b) (header b) (footer b).

Definition setMargins (top bottom left right : Z) (b : t) : t :=
  mk (pageSize b) top bottom left right (header b) (footer b).

Definition setHeader (h : string) (b : t) : t :=
  mk (pageSize b) (marginTop b) (marginBottom b) (marginLeft b) (marginRight b) h (footer b).

Definition setFooter (f : string) (b : t) : t :=
  mk (pageSize b) (marginTop b) (marginBottom b) (marginLeft b) (marginRight b) (header b) f.

(** [build]: a new [Document], then [setProperties] from the builder. *)
Definition build (b : t) : Document * list Event :=
  let '(doc, tr) := Document_new in
  (setProperties (pageSize b) (marginTop b) (marginBottom b) (marginLeft b) (marginRight b)
     (header b) (footer b) doc, tr).
End DocumentBuilder.

(** ** Measures used in the statements *)

Definition sum_listZ (l : list Z) : Z := foldr Z.add 0%Z l.

(** The number of words of a string: the maximal runs of characters that
    are not white space.  [in_word] tells whether the character before
    was part of a word. *)
Fixpoint words_from (in_word : bool) (s : string) : Z :=
  match s with
  | EmptyString => 0
  | String c s' =>
      if isspace c then words_from false s'
      else ((if in_word then 0 else 1) + words_from true s')%Z
  end.

Definition words (s : string) : Z := words_from false s.

(** The words of the paragraphs a visitor is shown: those in sections
    and inside decorators. *)
Fixpoint words_visited (e : DocumentElement) : Z :=
  match e with
  | Paragraph content _ => words content
  | Section ch _ => sum_listZ (map words_visited ch)
  | BoldDecorator w => words_visited w
  | ItalicDecorator w => words_visited w
  | _ => 0
  end.

(** The words of the paragraphs reached through sections only. *)
Fixpoint words_listed (e : DocumentElement) : Z :=
  match e with
  | Paragraph content _ => words content
  | Section ch _ => sum_listZ (map words_listed ch)
  | _ => 0
  end.

(** The words of the paragraphs inside decorators. *)
Fixpoint words_wrapped (e : DocumentElement) : Z :=
  match e with
  | Section ch _ => sum_listZ (map words_wrapped ch)
  | BoldDecorator w => words_visited w
  | ItalicDecorator w => words_visited w
  | _ => 0
  end.

(** The number of visitor calls [accept] makes, and how many of them are
    [visitSection]. *)
Fixpoint visits (e : DocumentElement) : nat :=
  match e with
  | Section ch _ => S (sum_list (map visits ch))
  | BoldDecorator w => visits w
  | ItalicDecorator w => visits w
  | ShapeAdapter _ _ _ _ => 0
  | _ => 1
  end.

Fixpoint sections_visited (e : DocumentElement) : nat :=
  match e with
  | Section ch _ => S (sum_list (map sections_visited ch))
  | BoldDecorator w => sections_visited w
  | ItalicDecorator w => sections_visited w
  | _ => 0
  end.

(** The image proxies without an image that [draw] comes to. *)
Fixpoint unloaded (e : DocumentElement) : nat :=
  match e with
  | Section ch _ => sum_list (map unloaded ch)
  | BoldDecorator w => unloaded w
  | ItalicDecorator w => unloaded w
  | ImageProxy _ None => 1
  | _ => 0
  end.

(** Following the section calls of a call sequence from nesting depth
    [depth]: [None] when an [endSection] comes with no section open,
    otherwise the depth at the end. *)
Fixpoint nesting (depth : nat) (cs : list RenderCall) : option nat :=
  match cs with
  | [] => Some depth
  | startSection :: cs' => nesting (S depth) cs'
  | endSection :: cs' =>
      match depth with
      | 0 => None
      | S depth' => nesting depth' cs'
      end
  | _ :: cs' => nesting depth cs'
  end.

(** A string without the underscore character. *)
Fixpoint no_underscore (s : string) : bool :=
  match s with
  | EmptyString => true
  | String c s' => negb (Ascii.eqb c (Ascii.ascii_of_nat 95)) && no_underscore s'
  end.

(** The handlers met from [h] on by following [nextHandler] to a null
    pointer. *)
Inductive chain (heap : gmap addr EventHandler.t) : addr -> list EventHandler.t -> Prop :=
| chain_last (h : addr) (obj : EventHandler.t) :
    heap !! h = Some obj -> EventHandler.nextHandler obj = None ->
    chain heap h [obj]
| chain_next (h next : addr) (obj : EventHandler.t) (rest : list EventHandler.t) :
    heap !! h = Some obj -> EventHandler.nextHandler obj = Some next ->
    chain heap next rest ->
    chain heap h (obj :: rest).

(** The line of the first handler of a list that handles the event. *)
Fixpoint first_handled (l : list EventHandler.t) (event : string) : list Event :=
  match l with
  | [] => []
  | obj :: rest =>
      match EventHandler.handled_by (EventHandler.kind obj) event with
      | Some line => [EvPrint line]
      | None => first_handled rest event
      end
  end.

(** The handlers of [main]: a click handler at 0 followed by a key press
    handler at 1. *)
Definition main_handlers : gmap addr EventHandler.t :=
  <[0 := EventHandler.setNext (Some 1) (EventHandler.make EventHandler.ClickHandler)]>
    (<[1 := EventHandler.make EventHandler.KeyPressHandler]> ∅).

(** Every key of the factory stores a pointer to a made format that has
    this very key, and there are as many keys as formats made. *)
Definition factory_keyed (f : CharacterFormatFactory.t) : Prop :=
  (forall k p, CharacterFormatFactory.formats f !! k = Some p ->
     exists fmt, CharacterFormatFactory.deref f p = Some fmt
       /\ CharacterFormatFactory.getKey (fontName fmt) (fontSize fmt) (color fmt) = k)
  /\ size (CharacterFormatFactory.formats f) = length (CharacterFormatFactory.made f).

(** Whether [dynamic_cast<Paragraph*>] succeeds on the element. *)
Definition is_paragraph (e : DocumentElement) : bool :=
  match e with
  | Paragraph _ _ => true
  | _ => false
  end.

(** What a second [draw] finds: the first has loaded every proxy it came
    to, so the second changes nothing, makes no image and makes the same
    renderer calls. *)
Definition settled (e : DocumentElement) : Prop :=
  materializations (snd (draw e)) = unloaded e
  /\ unloaded (fst (draw e)) = 0
  /\ fst (draw (fst (draw e))) = fst (draw e)
  /\ backend_calls (snd (draw (fst (draw e)))) = backend_calls (snd (draw e)).

(** [addElement] for every element of a list in turn, with the traces in
    order. *)
Fixpoint addElements (es : list DocumentElement) (d : Document) : Document * list Event :=
  match es with
  | [] => (d, [])
  | e :: es' =>
      let '(d1, t1) := addElement e d in
      let '(d2, t2) := addElements es' d1 in
      (d2, t1 ++ t2)
  end.

(** The notifications of a trace that go to a given observer. *)
Fixpoint notified (o : addr) (t : list Event) : nat :=
  match t with
  | [] => 0
  | EvChanged o' _ :: t' => (if decide (o' = o) then 1 else 0) + notified o t'
  | _ :: t' => notified o t'
  end.

(** * Properties *)

(** Induction over the tree, with the hypothesis for every child of a
    [Section]. *)
Section DocumentElement_induction.
Variable P : DocumentElement -> Prop.
Hypothesis HParagraph : forall c f, P (Paragraph c f).
Hypothesis HImage : forall p, P (Image p).
Hypothesis HTable : forall r c, P (Table r c).
Hypothesis HSection : forall ch name, Forall P ch -> P (Section ch name).
Hypothesis HBold : forall w, P w -> P (BoldDecorator w).
Hypothesis HItalic : forall w, P w -> P (ItalicDecorator w).
Hypothesis HProxy : forall p r, P (ImageProxy p r).
Hypothesis HShape : forall x y w h, P (ShapeAdapter x y w h).

Lemma DocumentElement_tree_ind : forall e, P e.
Proof using All.
  fix IH 1. intros [c f|p|r c|ch name|w|w|p r|x y w h].
  - apply HParagraph.
  - apply HImage.
  - apply HTable.
  - apply HSection. induction ch as [|c cs IHcs]; constructor; [apply IH | exact IHcs].
  - apply HBold, IH.
  - apply HItalic, IH.
  - apply HProxy.
  - apply HShape.
Qed.
End DocumentElement_induction.

(** ** Printing integers *)

Example to_string_examples :
  to_string 0 = "0" /\ to_string 12 = "12" /\ to_string (-305) = "-305".
Proof. vm_compute. repeat split. Qed.

(** ** Traces *)

Lemma backend_calls_app (t1 t2 : list Event) :
  backend_calls (t1 ++ t2) = backend_calls t1 ++ backend_calls t2.
Proof.
  induction t1 as [|ev t1 IH]; [reflexivity|].
  destruct ev; simpl; rewrite IH; reflexivity.
Qed.

Lemma materializations_app (t1 t2 : list Event) :
  materializations (t1 ++ t2) = materializations t1 + materializations t2.
Proof.
  induction t1 as [|ev t1 IH]; [reflexivity|].
  destruct ev; simpl; rewrite IH; reflexivity.
Qed.

(** ** Unfolding [draw] and [clone] *)

Lemma draw_Section (ch : list DocumentElement) (name : string) :
  draw (Section ch name)
  = (Section (fst (draw_children ch)) name,
     EvCall startSection :: snd (draw_children ch) ++ [EvCall endSection]).
Proof.
  change (draw (Section ch name))
    with (let '(ch', t) := draw_children ch in
          (Section ch' name, EvCall startSection :: t ++ [EvCall endSection])).
  destruct (draw_children ch); reflexivity.
Qed.

Lemma draw_children_cons (c : DocumentElement) (cs : list DocumentElement) :
  draw_children (c :: cs)
  = (fst (draw c) :: fst (draw_children cs), snd (draw c) ++ snd (draw_children cs)).
Proof. simpl. destruct (draw c), (draw_children cs); reflexivity. Qed.

Lemma draw_Bold_trace (w : DocumentElement) :
  snd (draw (BoldDecorator w))
  = match w with
    | Paragraph content _ => [EvCall (renderText content true false)]
    | _ => snd (draw w)
    end.
Proof. destruct w; try reflexivity; simpl; repeat case_match; reflexivity. Qed.

Lemma draw_Italic_trace (w : DocumentElement) :
  snd (draw (ItalicDecorator w))
  = match w with
    | Paragraph content _ => [EvCall (renderText content false true)]
    | _ => snd (draw w)
    end.
Proof. destruct w; try reflexivity; simpl; repeat case_match; reflexivity. Qed.

Lemma fold_left_push {A B : Type} (f : A -> B) (l : list A) (acc : list B) :
  fold_left (fun acc x => acc ++ [f x]) l acc = acc ++ map f l.
Proof.
  revert acc. induction l as [|x l IH]; intros acc; simpl.
  - by rewrite app_nil_r.
  - rewrite IH, <- app_assoc. reflexivity.
Qed.

Lemma clone_Section (ch : list DocumentElement) (name : string) :
  clone (Section ch name) = Section (map clone ch) name.
Proof.
  simpl. f_equal. unfold Section_add. apply (fold_left_push clone ch []).
Qed.

(** ** [clone] and [draw] *)

Lemma clone_draw_calls (e : DocumentElement) :
  cache_consistent e ->
  backend_calls (snd (draw (clone e))) = backend_calls (snd (draw e)).
Proof.
  induction e as [c f|p|r c|ch name IH|w IH|w IH|p r|x y w h]
    using DocumentElement_tree_ind; intros Hc; try reflexivity.
  - rewrite clone_Section, !draw_Section. simpl. rewrite !backend_calls_app.
    do 2 f_equal.
    induction IH as [|c cs Hc1 _ IHcs]; [reflexivity|].
    destruct Hc as [Hc0 Hcs].
    rewrite map_cons, !draw_children_cons. simpl. rewrite !backend_calls_app.
    rewrite (Hc1 Hc0), (IHcs Hcs). reflexivity.
  - change (clone (BoldDecorator w)) with (BoldDecorator (clone w)).
    rewrite !draw_Bold_trace. specialize (IH Hc).
    destruct w; try reflexivity; exact IH.
  - change (clone (ItalicDecorator w)) with (ItalicDecorator (clone w)).
    rewrite !draw_Italic_trace. specialize (IH Hc).
    destruct w; try reflexivity; exact IH.
  - destruct r as [img|]; [|reflexivity]. simpl in Hc. subst img. reflexivity.
Qed.

(** The state of the image proxies is kept by [draw] and holds of every
    clone. *)
Lemma draw_cache_consistent (e : DocumentElement) :
  cache_consistent e -> cache_consistent (fst (draw e)).
Proof.
  induction e as [c f|p|r c|ch name IH|w IH|w IH|p r|x y w h]
    using DocumentElement_tree_ind; intros Hc; try exact I.
  - rewrite draw_Section. simpl.
    induction IH as [|c cs Hc1 _ IHcs]; [exact I|].
    destruct Hc as [Hc0 Hcs]. rewrite draw_children_cons. simpl.
    split; [exact (Hc1 Hc0) | exact (IHcs Hcs)].
  - specialize (IH Hc). destruct w; try exact I; simpl in *;
      repeat case_match; simpl in *; try exact I; try assumption.
  - specialize (IH Hc). destruct w; try exact I; simpl in *;
      repeat case_match; simpl in *; try exact I; try assumption.
  - destruct r as [img|]; [exact Hc | reflexivity].
Qed.

Lemma clone_cache_consistent (e : DocumentElement) : cache_consistent (clone e).
Proof.
  induction e as [c f|p|r c|ch name IH|w IH|w IH|p r|x y w h]
    using DocumentElement_tree_ind; try exact I; try assumption.
  rewrite clone_Section. simpl.
  induction IH as [|c cs Hc _ IHcs]; [exact I | split; assumption].
Qed.

Lemma clone_clone (e : DocumentElement) : clone (clone e) = clone e.
Proof.
  induction e as [c f|p|r c|ch name IH|w IH|w IH|p r|x y w h]
    using DocumentElement_tree_ind; try reflexivity.
  - rewrite !clone_Section. f_equal.
    induction IH as [|c cs Hc _ IHcs]; [reflexivity|].
    simpl. rewrite Hc, IHcs. reflexivity.
  - simpl. rewrite IH. reflexivity.
  - simpl. rewrite IH. reflexivity.
Qed.

(** ** [clone] and the objects it makes *)

Section Placed_induction.
Variable P : Placed.t -> Prop.
Hypothesis HParagraph : forall a c f, P (Placed.Paragraph_at a c f).
Hypothesis HImage : forall a p, P (Placed.Image_at a p).
Hypothesis HTable : forall a r c, P (Placed.Table_at a r c).
Hypothesis HSection : forall a ch name, Forall P ch -> P (Placed.Section_at a ch name).
Hypothesis HBold : forall a w, P w -> P (Placed.BoldDecorator_at a w).
Hypothesis HItalic : forall a w, P w -> P (Placed.ItalicDecorator_at a w).
Hypothesis HProxy : forall a p r, P (Placed.ImageProxy_at a p r).
Hypothesis HShape : forall a x y w h, P (Placed.ShapeAdapter_at a x y w h).

Lemma Placed_tree_ind : forall o, P o.
Proof using All.
  fix IH 1. intros [a c f|a p|a r c|a ch name|a w|a w|a p r|a x y w h].
  - apply HParagraph.
  - apply HImage.
  - apply HTable.
  - apply HSection. induction ch as [|c cs IHcs]; constructor; [apply IH | exact IHcs].
  - apply HBold, IH.
  - apply HItalic, IH.
  - apply HProxy.
  - apply HShape.
Qed.
End Placed_induction.

Lemma Placed_clone_Section (a : addr) (ch : list Placed.t) (name : string) (n : addr) :
  Placed.clone (Placed.Section_at a ch name) n
  = (Placed.Section_at n (fst (Placed.clone_children ch [] (S n))) name,
     snd (Placed.clone_children ch [] (S n))).
Proof.
  change (Placed.clone (Placed.Section_at a ch name) n)
    with (let '(ch', next') := Placed.clone_children ch [] (S n) in
          (Placed.Section_at n ch' name, next')).
  destruct (Placed.clone_children ch [] (S n)); reflexivity.
Qed.

Lemma Placed_clone_children_fresh (ch : list Placed.t) :
  Forall clone_fresh ch ->
  forall (acc : list Placed.t) (n : addr),
  exists ch' : list Placed.t,
    fst (Placed.clone_children ch acc n) = acc ++ ch'
    /\ map Placed.erase ch' = map clone (map Placed.erase ch)
    /\ n <= snd (Placed.clone_children ch acc n)
    /\ Forall (fun a => n <= a < snd (Placed.clone_children ch acc n))
         (flat_map Placed.owned ch')
    /\ NoDup (flat_map Placed.owned ch')
    /\ flat_map Placed.format_pointers ch' = flat_map Placed.format_pointers ch.
Proof.
  induction 1 as [|c cs Hc _ IH]; intros acc n.
  - exists []. simpl. rewrite app_nil_r. repeat split; auto using NoDup_nil_2.
  - simpl. destruct (Hc n) as (He & Hlt & Hown & Hnd & Hfmt).
    destruct (Placed.clone c n) as [c' n1] eqn:Hcl. simpl in He, Hlt, Hown, Hnd, Hfmt.
    destruct (IH (acc ++ [c']) n1) as (cs' & Hfst & Hers & Hle & Hown' & Hnd' & Hfmt').
    exists (c' :: cs'). repeat split.
    + rewrite Hfst, <- app_assoc. reflexivity.
    + simpl. congruence.
    + lia.
    + simpl. apply Forall_app. split.
      * eapply Forall_impl; [exact Hown|]. simpl. intros; lia.
      * eapply Forall_impl; [exact Hown'|]. simpl. intros; lia.
    + simpl. apply NoDup_app. repeat split; [exact Hnd| |exact Hnd'].
      intros a Ha Ha'.
      rewrite Forall_forall in Hown, Hown'.
      specialize (Hown a Ha). specialize (Hown' a Ha'). lia.
    + simpl. congruence.
Qed.

Lemma Placed_clone_fresh (o : Placed.t) : clone_fresh o.
Proof.
  induction o as [a c f|a p|a r c|a ch name IH|a w IH|a w IH|a p r|a x y w h]
    using Placed_tree_ind; intros n.
  - simpl. repeat split; [lia|repeat constructor; lia|apply NoDup_singleton].
  - simpl. repeat split; [lia|repeat constructor; lia|apply NoDup_singleton].
  - simpl. repeat split; [lia|repeat constructor; lia|apply NoDup_singleton].
  - rewrite Placed_clone_Section.
    destruct (Placed_clone_children_fresh ch IH [] (S n))
      as (ch' & Hfst & Hers & Hle & Hown & Hnd & Hfmt).
    simpl in Hfst. simpl fst. simpl snd. rewrite Hfst. repeat split.
    + change (Section (map Placed.erase ch') name
              = clone (Section (map Placed.erase ch) name)).
      rewrite clone_Section, Hers. reflexivity.
    + lia.
    + simpl. constructor; [lia|].
      eapply Forall_impl; [exact Hown|]. simpl. intros; lia.
    + simpl. apply NoDup_cons. split; [|exact Hnd].
      intros Hin. rewrite Forall_forall in Hown. specialize (Hown n Hin). lia.
    + simpl. exact Hfmt.
  - simpl. destruct (IH n) as (He & Hlt & Hown & Hnd & Hfmt).
    destruct (Placed.clone w n) as [w' n1]. simpl in *. repeat split.
    + congruence.
    + lia.
    + constructor; [lia|]. eapply Forall_impl; [exact Hown|]. simpl. intros; lia.
    + apply NoDup_cons. split; [|exact Hnd].
      intros Hin. rewrite Forall_forall in Hown. specialize (Hown n1 Hin). lia.
    + exact Hfmt.
  - simpl. destruct (IH n) as (He & Hlt & Hown & Hnd & Hfmt).
    destruct (Placed.clone w n) as [w' n1]. simpl in *. repeat split.
    + congruence.
    + lia.
    + constructor; [lia|]. eapply Forall_impl; [exact Hown|]. simpl. intros; lia.
    + apply NoDup_cons. split; [|exact Hnd].
      intros Hin. rewrite Forall_forall in Hown. specialize (Hown n1 Hin). lia.
    + exact Hfmt.
  - simpl. repeat split; [lia|repeat constructor; lia|apply NoDup_singleton].
  - simpl. repeat split; [lia|repeat constructor; lia|apply NoDup_singleton].
Qed.

(** C2.  Let [e] be an element whose loaded proxies hold the image of
    their own path, and [o] a placed tree all of whose objects lie below
    the allocation counter [next].  The clone of [e] makes the renderer
    calls [e] makes, on every renderer; the clone of a section has the
    clones of its children, as many and in the same order; and the
    objects of the clone of [o] are all new, each used once, none an
    object of [o], while its format pointers are those of [o]. *)
Theorem clone_draws_alike_and_shares_only_formats
  (e : DocumentElement) (o : Placed.t) (next : addr)
  (Hcache : cache_consistent e)
  (Hlive : Forall (fun a => a < next) (Placed.owned o)) :
  backend_calls (snd (draw (clone e))) = backend_calls (snd (draw e))
  /\ (forall (R : Type) (B : IRenderer R) (r : R), draw_on (clone e) r = draw_on e r)
  /\ (forall ch name, e = Section ch name ->
        exists ch', clone e = Section ch' name
          /\ length ch' = length ch
          /\ forall i c, ch !! i = Some c -> ch' !! i = Some (clone c))
  /\ Placed.erase (fst (Placed.clone o next)) = clone (Placed.erase o)
  /\ (forall a, a ∈ Placed.owned o -> a ∉ Placed.owned (fst (Placed.clone o next)))
  /\ NoDup (Placed.owned (fst (Placed.clone o next)))
  /\ Placed.format_pointers (fst (Placed.clone o next)) = Placed.format_pointers o.
Proof.
  pose proof (clone_draw_calls e Hcache) as Hcalls.
  destruct (Placed_clone_fresh o next) as (He & _ & Hown & Hnd & Hfmt).
  repeat split; try assumption.
  - intros R B r. unfold draw_on. rewrite Hcalls. reflexivity.
  - intros ch name ->. exists (map clone ch). rewrite clone_Section.
    repeat split.
    + apply length_map.
    + intros i c Hi. rewrite list_lookup_fmap, Hi. reflexivity.
  - intros a Ha Ha'.
    rewrite Forall_forall in Hlive, Hown.
    specialize (Hlive a Ha). specialize (Hown a Ha'). lia.
Qed.

(** C2 at [chapter_placed], cloned at counter 6. *)
Lemma clone_draws_alike_chapter :
  cache_consistent (Placed.erase chapter_placed)
  /\ Forall (fun a => a < 6) (Placed.owned chapter_placed)
  /\ (backend_calls (snd (draw (clone (Placed.erase chapter_placed))))
      = backend_calls (snd (draw (Placed.erase chapter_placed)))
      /\ (forall (R : Type) (B : IRenderer R) (r : R),
            draw_on (clone (Placed.erase chapter_placed)) r
            = draw_on (Placed.erase chapter_placed) r)
      /\ (forall ch name, Placed.erase chapter_placed = Section ch name ->
            exists ch', clone (Placed.erase chapter_placed) = Section ch' name
              /\ length ch' = length ch
              /\ forall i c, ch !! i = Some c -> ch' !! i = Some (clone c))
      /\ Placed.erase (fst (Placed.clone chapter_placed 6))
         = clone (Placed.erase chapter_placed)
      /\ (forall a, a ∈ Placed.owned chapter_placed ->
                    a ∉ Placed.owned (fst (Placed.clone chapter_placed 6)))
      /\ NoDup (Placed.owned (fst (Placed.clone chapter_placed 6)))
      /\ Placed.format_pointers (fst (Placed.clone chapter_placed 6))
         = Placed.format_pointers chapter_placed).
Proof.
  assert (Hc : cache_consistent (Placed.erase chapter_placed)).
  { simpl. repeat split. }
  assert (Hl : Forall (fun a => a < 6) (Placed.owned chapter_placed)).
  { simpl. repeat (constructor; [lia|]). constructor. }
  exact (conj Hc (conj Hl
    (clone_draws_alike_and_shares_only_formats
       (Placed.erase chapter_placed) chapter_placed 6 Hc Hl))).
Defined.

(** ** Type tags *)

(** C4, as the code has it.  A decorator answers [getType] with the type
    of what it wraps; an [ImageProxy] answers with its own tag, which is
    not the tag of the [Image] it stands for. *)
Theorem decorator_forwards_type_proxy_keeps_own
  (e : DocumentElement) (path : string) (real : option string) :
  getType (BoldDecorator e) = getType e
  /\ getType (ItalicDecorator e) = getType e
  /\ getType (ImageProxy path real) = "ImageProxy"
  /\ getType (ImageProxy path real) <> getType (Image path).
Proof. repeat split. discriminate. Qed.

(** C4, as stated, fails on a proxy: its tag is not the image's tag. *)
Lemma proxy_type_is_not_image_type :
  ~ (forall (path : string) (real : option string),
       getType (ImageProxy path real) = getType (Image path)).
Proof. intros H. specialize (H "photo.jpg" None). discriminate H. Qed.

(** ** The image proxy *)

Lemma draw_loaded_proxy (path img : string) :
  draw (ImageProxy path (Some img))
  = (ImageProxy path (Some img), [EvCall (renderImage img)]).
Proof. reflexivity. Qed.

Lemma draw_times_loaded_proxy (n : nat) (path img : string) :
  fst (draw_times n (ImageProxy path (Some img))) = ImageProxy path (Some img)
  /\ materializations (snd (draw_times n (ImageProxy path (Some img)))) = 0.
Proof.
  induction n as [|n [IH1 IH2]]; [split; reflexivity|].
  change (draw_times (S n) (ImageProxy path (Some img)))
    with (let '(e2, t2) := draw_times n (ImageProxy path (Some img)) in
          (e2, [EvCall (renderImage img)] ++ t2)).
  destruct (draw_times n (ImageProxy path (Some img))) as [e2 t2].
  simpl in *. split; assumption.
Qed.

(** C6.  The first [draw] of a new proxy makes the image of its path,
    once; a [draw] of a loaded proxy makes nothing, draws the image it
    holds and leaves the proxy as it was; so any number of draws after the
    first make one image in all. *)
Theorem proxy_materializes_once (path : string) :
  draw (ImageProxy path None)
  = (ImageProxy path (Some path),
     [EvPrint ("[Proxy] Loading image: " +:+ path); EvMakeImage path;
      EvCall (renderImage path)])
  /\ materializations (snd (draw (ImageProxy path None))) = 1
  /\ (forall img : string,
        fst (draw (ImageProxy path (Some img))) = ImageProxy path (Some img)
        /\ materializations (snd (draw (ImageProxy path (Some img)))) = 0
        /\ backend_calls (snd (draw (ImageProxy path (Some img)))) = [renderImage img])
  /\ (forall n : nat,
        fst (draw_times (S n) (ImageProxy path None)) = ImageProxy path (Some path)
        /\ materializations (snd (draw_times (S n) (ImageProxy path None))) = 1).
Proof.
  repeat split.
  - change (draw_times (S n) (ImageProxy path None))
      with (let '(e2, t2) := draw_times n (ImageProxy path (Some path)) in
            (e2, snd (draw (ImageProxy path None)) ++ t2)).
    destruct (draw_times_loaded_proxy n path path) as [H _].
    destruct (draw_times n (ImageProxy path (Some path))); exact H.
  - change (draw_times (S n) (ImageProxy path None))
      with (let '(e2, t2) := draw_times n (ImageProxy path (Some path)) in
            (e2, snd (draw (ImageProxy path None)) ++ t2)).
    destruct (draw_times_loaded_proxy n path path) as [_ H].
    destruct (draw_times n (ImageProxy path (Some path))) as [e2 t2].
    simpl in *. rewrite H. reflexivity.
Qed.

(** C10.  The clone of a proxy is a proxy of the same path with no image,
    whatever the original holds, also after the original was drawn; its
    first [draw] makes the image anew. *)
Theorem proxy_clone_is_unloaded (path : string) (real : option string) :
  clone (ImageProxy path real) = ImageProxy path None
  /\ clone (fst (draw (ImageProxy path real))) = ImageProxy path None
  /\ materializations (snd (draw (clone (fst (draw (ImageProxy path real)))))) = 1
  /\ fst (draw (clone (fst (draw (ImageProxy path real))))) = ImageProxy path (Some path).
Proof. destruct real; repeat split. Qed.

(** ** Decorators *)

(** The decorated paragraphs of [main] on the two renderers. *)
Example bold_paragraph_on_console :
  snd (draw_on (BoldDecorator (Paragraph "Bold text" None)) mkConsoleRenderer)
  = ["[BOLD] Bold text"].
Proof. reflexivity. Qed.

Example italic_paragraph_on_html :
  snd (draw_on (ItalicDecorator (Paragraph "Italic text" None)) mkHTMLRenderer)
  = ["<p><em>Italic text</em></p>"].
Proof. reflexivity. Qed.

(** C9.  A decorator around a decorator adds nothing: bold around italic
    around a paragraph makes the one call italic around the paragraph
    makes, and the other way round; in general a decorator around any
    decorator draws as the inner decorator does, on every renderer. *)
Theorem nested_decorators_drop_outer_flag (content : string) (format : option addr) :
  backend_calls (snd (draw (BoldDecorator (ItalicDecorator (Paragraph content format)))))
  = backend_calls (snd (draw (ItalicDecorator (Paragraph content format))))
  /\ backend_calls (snd (draw (ItalicDecorator (Paragraph content format))))
     = [renderText content false true]
  /\ backend_calls (snd (draw (ItalicDecorator (BoldDecorator (Paragraph content format)))))
     = backend_calls (snd (draw (BoldDecorator (Paragraph content format))))
  /\ backend_calls (snd (draw (BoldDecorator (Paragraph content format))))
     = [renderText content true false]
  /\ (forall (R : Type) (B : IRenderer R) (r : R),
        draw_on (BoldDecorator (ItalicDecorator (Paragraph content format))) r
        = draw_on (ItalicDecorator (Paragraph content format)) r
        /\ draw_on (ItalicDecorator (BoldDecorator (Paragraph content format))) r
           = draw_on (BoldDecorator (Paragraph content format)) r)
  /\ (forall w : DocumentElement,
        snd (draw (BoldDecorator (BoldDecorator w))) = snd (draw (BoldDecorator w))
        /\ snd (draw (BoldDecorator (ItalicDecorator w))) = snd (draw (ItalicDecorator w))
        /\ snd (draw (ItalicDecorator (BoldDecorator w))) = snd (draw (BoldDecorator w))
        /\ snd (draw (ItalicDecorator (ItalicDecorator w))) = snd (draw (ItalicDecorator w))).
Proof.
  repeat split; try reflexivity.
  - rewrite (draw_Bold_trace (BoldDecorator w)). reflexivity.
  - rewrite (draw_Bold_trace (ItalicDecorator w)). reflexivity.
  - rewrite (draw_Italic_trace (BoldDecorator w)). reflexivity.
  - rewrite (draw_Italic_trace (ItalicDecorator w)). reflexivity.
Qed.

(** ** The document *)

Lemma notify_each_map (os : list addr) (d : Document) :
  notify_each os d = map (fun o => EvChanged o d) os.
Proof. induction os as [|o os IH]; simpl; [|rewrite IH]; reflexivity. Qed.

(** C8.  In every state [addElement] returns, with the element added at
    the end of the root section, the state and the observers as they
    were, and a trace that is exactly one [onDocumentChanged] per
    observer, in the order of [observers], each seeing the document with
    the element already added. *)
Theorem addElement_appends_and_notifies (d : Document) (e : DocumentElement) :
  exists (d' : Document) (tr : list Event),
    addElement e d = (d', tr)
    /\ children (rootSection d') = children (rootSection d) ++ [e]
    /\ sectionName (rootSection d') = sectionName (rootSection d)
    /\ currentState d' = currentState d
    /\ observers d' = observers d
    /\ tr = map (fun o => EvChanged o d') (observers d)
    /\ (forall o : addr,
          snd (addElement e (attach o d))
          = map (fun o' => EvChanged o' (fst (addElement e (attach o d)))) (observers d)
            ++ [EvChanged o (fst (addElement e (attach o d)))])
    /\ (forall s : DocumentState,
          currentState (fst (addElement e (fst (setState s d)))) = s
          /\ children (rootSection (fst (addElement e (fst (setState s d)))))
             = children (rootSection d) ++ [e]).
Proof.
  eexists _, _. split; [reflexivity|].
  repeat split.
  - unfold notifyObservers. simpl. apply notify_each_map.
  - intros o. unfold addElement, notifyObservers. simpl.
    rewrite notify_each_map, map_app. reflexivity.
Qed.

(** ** The command history *)

Lemma pop_all_nil {C : Type} (s : list C) : CommandHistory.pop_all s = [].
Proof. induction s as [|c s IH]; [reflexivity | exact IH]. Qed.

(** C7.  For every kind of command: [undo] on an empty undo stack only
    reports that there is nothing to undo, history and world stay as they
    are, and likewise [redo] on an empty redo stack; [executeCommand]
    executes the command on the world at once, pushes the executed
    command on the undo stack and leaves the redo stack empty. *)
Theorem history_noop_on_empty_and_execute
  {W C : Type} {I : Command.Interface W C}
  (h : CommandHistory.t C) (stack : list C) (cmd : C) (w : W) :
  CommandHistory.undo (CommandHistory.mk [] stack) w
  = (CommandHistory.mk [] stack, w, [EvPrint "[Command] Nothing to undo"])
  /\ CommandHistory.redo (CommandHistory.mk stack []) w
     = (CommandHistory.mk stack [], w, [EvPrint "[Command] Nothing to redo"])
  /\ CommandHistory.executeCommand cmd h w
     = (CommandHistory.mk (fst (fst (Command.execute cmd w)) :: CommandHistory.undoStack h) [],
        snd (fst (Command.execute cmd w)),
        snd (Command.execute cmd w)).
Proof.
  repeat split.
  unfold CommandHistory.executeCommand.
  destruct (Command.execute cmd w) as [[cmd' w'] tr].
  rewrite pop_all_nil. reflexivity.
Qed.

(** After execute, undo and redo of an add command the root section has
    the element and, behind it, a clone of it. *)
Lemma add_undo_redo_children (doc : Document) (X : DocumentElement) :
  children (rootSection (add_undo_redo doc X))
  = children (rootSection doc) ++ [X; clone X].
Proof.
  unfold add_undo_redo. simpl. unfold Section_add.
  rewrite <- app_assoc, clone_clone. reflexivity.
Qed.

(** C1, on the code: after [executeCommand], [undo] and [redo] of adding
    a paragraph to a new document, the root section holds the paragraph
    twice. *)
Theorem add_undo_redo_adds_twice :
  children (rootSection (add_undo_redo (fst Document_new)
                           (Paragraph "Command pattern test" None)))
  = [Paragraph "Command pattern test" None; Paragraph "Command pattern test" None].
Proof. reflexivity. Qed.

(** ** The format factory *)

Lemma getFormat_stored (font : string) (size : Z) (color : string)
    (f : CharacterFormatFactory.t) :
  CharacterFormatFactory.formats (snd (fst (CharacterFormatFactory.getFormat font size color f)))
    !! CharacterFormatFactory.getKey font size color
  = Some (fst (fst (CharacterFormatFactory.getFormat font size color f))).
Proof.
  unfold CharacterFormatFactory.getFormat.
  destruct (CharacterFormatFactory.formats f !! CharacterFormatFactory.getKey font size color)
    as [p|] eqn:Hk; simpl.
  - exact Hk.
  - apply lookup_insert_eq.
Qed.

Lemma getFormat_keeps (font : string) (size : Z) (color : string)
    (f : CharacterFormatFactory.t) (k : string) (q : addr) :
  CharacterFormatFactory.formats f !! k = Some q ->
  CharacterFormatFactory.formats (snd (fst (CharacterFormatFactory.getFormat font size color f)))
    !! k = Some q.
Proof.
  intros Hq. unfold CharacterFormatFactory.getFormat.
  destruct (CharacterFormatFactory.formats f !! CharacterFormatFactory.getKey font size color)
    as [p|] eqn:Hk; simpl; [exact Hq|].
  rewrite lookup_insert_ne; [exact Hq|]. intros <-. congruence.
Qed.

Lemma getFormat_hit (font : string) (size : Z) (color : string)
    (f : CharacterFormatFactory.t) (p : addr) :
  CharacterFormatFactory.formats f !! CharacterFormatFactory.getKey font size color = Some p ->
  CharacterFormatFactory.getFormat font size color f = (p, f, []).
Proof. intros Hp. unfold CharacterFormatFactory.getFormat. rewrite Hp. reflexivity. Qed.

Lemma getFormats_keeps (reqs : list (string * Z * string)) (f : CharacterFormatFactory.t)
    (k : string) (q : addr) :
  CharacterFormatFactory.formats f !! k = Some q ->
  CharacterFormatFactory.formats (getFormats reqs f) !! k = Some q.
Proof.
  revert f. induction reqs as [|[[font size] color] reqs IH]; intros f Hq; [exact Hq|].
  simpl. apply IH, getFormat_keeps, Hq.
Qed.

(** The half of C3 that holds: two requests for the same triple return
    the same pointer, whatever was requested in between, and the second
    makes no object. *)
Lemma getFormat_same_triple_same_instance (font : string) (size : Z) (color : string)
    (f : CharacterFormatFactory.t) (between : list (string * Z * string)) :
  let first := CharacterFormatFactory.getFormat font size color f in
  let f1 := getFormats between (snd (fst first)) in
  CharacterFormatFactory.getFormat font size color f1 = (fst (fst first), f1, []).
Proof.
  simpl. apply getFormat_hit, getFormats_keeps, getFormat_stored.
Qed.

Lemma factory_wf_empty : factory_wf CharacterFormatFactory.empty.
Proof. split; simpl; intros *; rewrite lookup_empty; discriminate. Qed.

Lemma getFormat_wf (font : string) (size : Z) (color : string)
    (f : CharacterFormatFactory.t) :
  factory_wf f ->
  factory_wf (snd (fst (CharacterFormatFactory.getFormat font size color f))).
Proof.
  intros [Hlt Hinj]. unfold CharacterFormatFactory.getFormat.
  destruct (CharacterFormatFactory.formats f !! CharacterFormatFactory.getKey font size color)
    as [p|] eqn:Hk; simpl; [split; assumption|].
  split; simpl.
  - intros k p. rewrite length_app. simpl. rewrite lookup_insert.
    case_decide; [intros [= <-]; lia|]. intros Hp. specialize (Hlt _ _ Hp). lia.
  - intros k1 k2 p. rewrite !lookup_insert.
    repeat case_decide; subst; try congruence.
    + intros [= <-] Hp. specialize (Hlt _ _ Hp). lia.
    + intros Hp [= <-]. specialize (Hlt _ _ Hp). lia.
    + apply Hinj.
Qed.

(** What holds of requests with different keys: on a well-formed
    factory they return different pointers. *)
Lemma getFormat_different_keys_different_instances
    (font1 font2 : string) (size1 size2 : Z) (color1 color2 : string)
    (f : CharacterFormatFactory.t) :
  factory_wf f ->
  CharacterFormatFactory.getKey font1 size1 color1
    <> CharacterFormatFactory.getKey font2 size2 color2 ->
  let first := CharacterFormatFactory.getFormat font1 size1 color1 f in
  fst (fst first)
  <> fst (fst (CharacterFormatFactory.getFormat font2 size2 color2 (snd (fst first)))).
Proof.
  intros Hwf Hne. simpl.
  pose proof (getFormat_wf font1 size1 color1 f Hwf) as [Hlt Hinj].
  pose proof (getFormat_stored font1 size1 color1 f) as H1.
  pose proof (getFormat_stored font2 size2 color2
                (snd (fst (CharacterFormatFactory.getFormat font1 size1 color1 f)))) as H2.
  pose proof (getFormat_keeps font2 size2 color2 _ _ _ H1) as H1'.
  pose proof (getFormat_wf font2 size2 color2 _ (getFormat_wf font1 size1 color1 f Hwf))
    as [_ Hinj2].
  intros Heq. rewrite <- Heq in H2. exact (Hne (Hinj2 _ _ _ H1' H2)).
Qed.

(** C3, on the code: two different triples with the same key.  The second
    request returns the pointer of the first, whose object has the font,
    size and colour of the first request. *)
Theorem getFormat_key_collision :
  ("a_1", 2%Z, "b") <> ("a", 1%Z, "2_b")
  /\ CharacterFormatFactory.getKey "a_1" 2 "b" = CharacterFormatFactory.getKey "a" 1 "2_b"
  /\ (let first := CharacterFormatFactory.getFormat "a_1" 2 "b" CharacterFormatFactory.empty in
      let second := CharacterFormatFactory.getFormat "a" 1 "2_b" (snd (fst first)) in
      fst (fst second) = fst (fst first)
      /\ CharacterFormatFactory.deref (snd (fst second)) (fst (fst second))
         = Some (mkCharacterFormat "a_1" 2 "b")).
Proof.
  split; [discriminate|]. split; [reflexivity|].
  vm_compute. split; reflexivity.
Qed.

(** ** The iterator *)

Lemma collect_child_listing (c : DocumentElement) :
  forall acc, DocumentIterator.collect_child c acc = acc ++ listing c.
Proof.
  induction c as [c f|p|r c|ch name IH|w IH|w IH|p r|x y w h]
    using DocumentElement_tree_ind; intros acc; try reflexivity.
  simpl.
  replace (acc ++ Section ch name :: flat_map listing ch)
    with ((acc ++ [Section ch name]) ++ flat_map listing ch)
    by (rewrite <- app_assoc; reflexivity).
  generalize (acc ++ [Section ch name]). clear acc.
  induction IH as [|c cs Hc _ IHcs]; intros acc; simpl.
  - by rewrite app_nil_r.
  - rewrite Hc, IHcs, <- app_assoc. reflexivity.
Qed.

Lemma collectElements_listing (root : SectionObj) (acc : list DocumentElement) :
  DocumentIterator.collectElements root acc = acc ++ flat_map listing (children root).
Proof.
  unfold DocumentIterator.collectElements. revert acc.
  induction (children root) as [|c cs IH]; intros acc; simpl.
  - by rewrite app_nil_r.
  - rewrite IH, collect_child_listing, <- app_assoc. reflexivity.
Qed.

Lemma length_flat_map_sum {A B : Type} (f : A -> list B) (g : A -> nat) (l : list A) :
  Forall (fun x => length (f x) = g x) l ->
  length (flat_map f l) = sum_list (map g l).
Proof.
  induction 1 as [|x l Hx _ IH]; [reflexivity|].
  simpl. rewrite length_app, Hx, IH. reflexivity.
Qed.

Lemma length_listing (e : DocumentElement) : length (listing e) = count_listed e.
Proof.
  induction e as [c f|p|r c|ch name IH|w IH|w IH|p r|x y w h]
    using DocumentElement_tree_ind; try reflexivity.
  simpl. f_equal. apply length_flat_map_sum, IH.
Qed.

Lemma count_nodes_split (e : DocumentElement) :
  count_nodes e = count_listed e + count_wrapped e.
Proof.
  induction e as [c f|p|r c|ch name IH|w IH|w IH|p r|x y w h]
    using DocumentElement_tree_ind; try reflexivity.
  simpl. f_equal.
  induction IH as [|c cs Hc _ IHcs]; [reflexivity|].
  simpl. rewrite Hc, IHcs. lia.
Qed.

Lemma take_next_all (l1 l2 : list DocumentElement) :
  DocumentIterator.take_next (length l2) (DocumentIterator.mk (l1 ++ l2) (length l1))
  = (map Some l2, DocumentIterator.mk (l1 ++ l2) (length (l1 ++ l2))).
Proof.
  revert l1. induction l2 as [|x l2 IH]; intros l1.
  - simpl. rewrite app_nil_r. reflexivity.
  - simpl. unfold DocumentIterator.next, DocumentIterator.hasNext. simpl.
    rewrite bool_decide_eq_true_2 by (rewrite length_app; simpl; lia).
    rewrite list_lookup_middle by reflexivity.
    specialize (IH (l1 ++ [x])). rewrite <- app_assoc, length_app in IH.
    simpl in IH. rewrite Nat.add_1_r in IH. rewrite IH. reflexivity.
Qed.

Lemma take_next_exhausted (n : nat) (els : list DocumentElement) (pos : nat) :
  length els <= pos ->
  DocumentIterator.take_next n (DocumentIterator.mk els pos)
  = (replicate n None, DocumentIterator.mk els pos).
Proof.
  intros Hle. induction n as [|n IH]; [reflexivity|].
  simpl. unfold DocumentIterator.next, DocumentIterator.hasNext. simpl.
  rewrite bool_decide_eq_false_2 by lia. rewrite IH. reflexivity.
Qed.

Lemma take_next_app (n m : nat) (it : DocumentIterator.t) :
  DocumentIterator.take_next (n + m) it
  = (fst (DocumentIterator.take_next n it)
       ++ fst (DocumentIterator.take_next m (snd (DocumentIterator.take_next n it))),
     snd (DocumentIterator.take_next m (snd (DocumentIterator.take_next n it)))).
Proof.
  revert it. induction n as [|n IH]; intros it; simpl.
  - destruct (DocumentIterator.take_next m it); reflexivity.
  - destruct (DocumentIterator.next it) as [r it1]. rewrite IH.
    destruct (DocumentIterator.take_next n it1) as [rs it2]. reflexivity.
Qed.

Lemma take_next_elements (n : nat) (it : DocumentIterator.t) :
  DocumentIterator.elements (snd (DocumentIterator.take_next n it))
  = DocumentIterator.elements it.
Proof.
  revert it. induction n as [|n IH]; intros it; [reflexivity|].
  simpl. destruct (DocumentIterator.next it) as [r it1] eqn:Hn.
  specialize (IH it1). destruct (DocumentIterator.take_next n it1) as [rs it2].
  simpl in *. rewrite IH.
  unfold DocumentIterator.next in Hn. destruct (DocumentIterator.hasNext it);
    injection Hn as _ <-; reflexivity.
Qed.

Lemma omap_id_Some {A : Type} (l : list A) (n : nat) :
  omap id (map Some l ++ replicate n None) = l.
Proof.
  induction l as [|x l IH].
  - induction n as [|n IHn]; [reflexivity | exact IHn].
  - change (x :: omap id (map Some l ++ replicate n None) = x :: l).
    rewrite IH. reflexivity.
Qed.

(** C5, as the code has it.  The iterator made from a document holds the
    pre-order listing of what lies below the root section through
    sections only: neither the root nor anything inside a decorator.
    With [M] the number of these nodes, [M] plus any number of calls of
    [next] give these [M] elements in order and then null every time,
    the iterator staying where it is; [reset] after any number of calls
    gives back the iterator as made, the same element list included, so
    the same results follow again.  The tree has [M] nodes, the root, and
    the nodes inside decorators. *)
Theorem iterator_yields_listing (d : Document) (j k : nat) :
  let els := flat_map listing (children (rootSection d)) in
  let M := listed_below (rootSection d) in
  DocumentIterator.make d = DocumentIterator.mk els 0
  /\ length els = M
  /\ DocumentIterator.take_next (M + j) (DocumentIterator.make d)
     = (map Some els ++ replicate j None, DocumentIterator.mk els M)
  /\ yielded (M + j) (DocumentIterator.make d) = M
  /\ DocumentIterator.hasNext (DocumentIterator.mk els M) = false
  /\ DocumentIterator.next (DocumentIterator.mk els M) = (None, DocumentIterator.mk els M)
  /\ DocumentIterator.reset (snd (DocumentIterator.take_next k (DocumentIterator.make d)))
     = DocumentIterator.make d
  /\ DocumentIterator.take_next (M + j)
       (DocumentIterator.reset (snd (DocumentIterator.take_next k (DocumentIterator.make d))))
     = DocumentIterator.take_next (M + j) (DocumentIterator.make d)
  /\ count_nodes (as_element (rootSection d))
     = S (M + count_wrapped (as_element (rootSection d))).
Proof.
  intros els M.
  assert (Hmake : DocumentIterator.make d = DocumentIterator.mk els 0).
  { unfold DocumentIterator.make. rewrite collectElements_listing. reflexivity. }
  assert (Hlen : length els = M).
  { apply length_flat_map_sum, Forall_forall. intros e _. apply length_listing. }
  assert (Htake : DocumentIterator.take_next (M + j) (DocumentIterator.make d)
                  = (map Some els ++ replicate j None, DocumentIterator.mk els M)).
  { rewrite Hmake, take_next_app, <- Hlen.
    pose proof (take_next_all [] els) as Hall. simpl in Hall.
    rewrite Hall. simpl.
    rewrite take_next_exhausted by lia. reflexivity. }
  assert (Hreset : DocumentIterator.reset
                     (snd (DocumentIterator.take_next k (DocumentIterator.make d)))
                   = DocumentIterator.make d).
  { unfold DocumentIterator.reset. rewrite take_next_elements, Hmake. reflexivity. }
  repeat split; try assumption.
  - unfold yielded. rewrite Htake. simpl. rewrite omap_id_Some. exact Hlen.
  - unfold DocumentIterator.hasNext. simpl. apply bool_decide_eq_false_2. lia.
  - unfold DocumentIterator.next, DocumentIterator.hasNext. simpl.
    rewrite bool_decide_eq_false_2 by lia. reflexivity.
  - rewrite Hreset. reflexivity.
  - rewrite count_nodes_split. reflexivity.
Qed.

(** C5, as stated, fails: a root section holding a bold decorator around
    a section of two paragraphs is a tree of five nodes, four without the
    root, and the iterator yields one element. *)
Lemma iterator_does_not_yield_every_node :
  ~ (forall (d : Document) (n : nat),
       count_nodes (as_element (rootSection d)) <= n ->
       yielded n (DocumentIterator.make d) = count_nodes (as_element (rootSection d)))
  /\ ~ (forall (d : Document) (n : nat),
          count_nodes (as_element (rootSection d)) <= n ->
          yielded n (DocumentIterator.make d)
          = count_nodes (as_element (rootSection d)) - 1).
Proof.
  pose (d0 := fst (addElement
                     (BoldDecorator (Section [Paragraph "a" None; Paragraph "b" None] "s"))
                     (fst Document_new))).
  split; intros H; specialize (H d0 5); vm_compute in H;
    specialize (H (le_n 5)); discriminate H.
Qed.

(** * Further properties *)

(** ** The format factory, continued *)

Lemma getFormat_made_grows (font : string) (size : Z) (color : string)
    (f : CharacterFormatFactory.t) (p : addr) (fmt : CharacterFormat) :
  CharacterFormatFactory.deref f p = Some fmt ->
  CharacterFormatFactory.deref
    (snd (fst (CharacterFormatFactory.getFormat font size color f))) p = Some fmt.
Proof.
  unfold CharacterFormatFactory.deref, CharacterFormatFactory.getFormat. intros Hp.
  destruct (CharacterFormatFactory.formats f !! CharacterFormatFactory.getKey font size color);
    simpl; [exact Hp|].
  apply lookup_app_l_Some, Hp.
Qed.

Lemma getFormats_made_grows (reqs : list (string * Z * string))
    (f : CharacterFormatFactory.t) (p : addr) (fmt : CharacterFormat) :
  CharacterFormatFactory.deref f p = Some fmt ->
  CharacterFormatFactory.deref (getFormats reqs f) p = Some fmt.
Proof.
  revert f. induction reqs as [|[[font size] color] reqs IH]; intros f Hp; [exact Hp|].
  simpl. apply IH, getFormat_made_grows, Hp.
Qed.

(** X1.  Two requests for the same font, size and colour return the same
    pointer whatever was requested in between, and the second request
    makes no format, writes nothing and leaves the factory as it is. *)
Theorem same_triple_same_instance (font : string) (size : Z) (color : string)
    (f : CharacterFormatFactory.t) (between : list (string * Z * string)) :
  CharacterFormatFactory.getFormat font size color
    (getFormats between (snd (fst (CharacterFormatFactory.getFormat font size color f))))
  = (fst (fst (CharacterFormatFactory.getFormat font size color f)),
     getFormats between (snd (fst (CharacterFormatFactory.getFormat font size color f))),
     []).
Proof. apply getFormat_hit, getFormats_keeps, getFormat_stored. Qed.

(** X2.  The factory never changes or drops a format it has handed out:
    a pointer that designates a format keeps designating the same format
    after any further requests, and a key keeps its pointer. *)
Theorem interned_formats_are_kept (reqs : list (string * Z * string))
    (f : CharacterFormatFactory.t) :
  (forall p fmt, CharacterFormatFactory.deref f p = Some fmt ->
                 CharacterFormatFactory.deref (getFormats reqs f) p = Some fmt)
  /\ (forall k p, CharacterFormatFactory.formats f !! k = Some p ->
                  CharacterFormatFactory.formats (getFormats reqs f) !! k = Some p).
Proof.
  split.
  - intros p fmt. apply getFormats_made_grows.
  - intros k p. apply getFormats_keeps.
Qed.

Lemma getFormat_keyed (font : string) (size : Z) (color : string)
    (f : CharacterFormatFactory.t) :
  factory_wf f -> factory_keyed f ->
  factory_keyed (snd (fst (CharacterFormatFactory.getFormat font size color f))).
Proof.
  intros [Hlt _] [Hkey Hsize].
  pose proof (getFormat_made_grows font size color f) as Hgrow.
  unfold CharacterFormatFactory.getFormat in *.
  destruct (CharacterFormatFactory.formats f !! CharacterFormatFactory.getKey font size color)
    as [p|] eqn:Hk; simpl in *; [split; assumption|].
  split; simpl.
  - intros k p. rewrite lookup_insert. case_decide as Hd.
    + intros [= <-]. subst k. exists (mkCharacterFormat font size color). split; [|reflexivity].
      unfold CharacterFormatFactory.deref. simpl.
      rewrite lookup_app_r by lia. rewrite Nat.sub_diag. reflexivity.
    + intros Hp. destruct (Hkey _ _ Hp) as (fmt & Hfmt & Hkeyeq).
      exists fmt. split; [|exact Hkeyeq]. apply Hgrow, Hfmt.
  - rewrite map_size_insert_None by exact Hk. rewrite length_app. simpl. lia.
Qed.

Lemma getFormats_reachable (reqs : list (string * Z * string))
    (f : CharacterFormatFactory.t) :
  factory_wf f -> factory_keyed f ->
  factory_wf (getFormats reqs f) /\ factory_keyed (getFormats reqs f).
Proof.
  revert f. induction reqs as [|[[font size] color] reqs IH]; intros f Hwf Hk.
  - split; assumption.
  - simpl. apply IH; [apply getFormat_wf, Hwf | apply getFormat_keyed; assumption].
Qed.

Lemma factory_keyed_empty : factory_keyed CharacterFormatFactory.empty.
Proof.
  split; [|reflexivity]. intros k p. simpl. rewrite lookup_empty. discriminate.
Qed.

(** X3.  In a factory built from the empty one by any requests, a further
    request returns a pointer to a format whose key is the key of the
    request; no two keys share a format, and the number of formats made
    is the number of keys stored. *)
Theorem factory_from_empty_is_keyed (reqs : list (string * Z * string))
    (font : string) (sz : Z) (col : string) :
  let f := getFormats reqs CharacterFormatFactory.empty in
  let r := CharacterFormatFactory.getFormat font sz col f in
  (exists fmt, CharacterFormatFactory.deref (snd (fst r)) (fst (fst r)) = Some fmt
     /\ CharacterFormatFactory.getKey (fontName fmt) (fontSize fmt) (color fmt)
        = CharacterFormatFactory.getKey font sz col)
  /\ (forall k1 k2 p, CharacterFormatFactory.formats f !! k1 = Some p ->
                      CharacterFormatFactory.formats f !! k2 = Some p -> k1 = k2)
  /\ size (CharacterFormatFactory.formats f) = length (CharacterFormatFactory.made f).
Proof.
  intros f r.
  destruct (getFormats_reachable reqs _ factory_wf_empty factory_keyed_empty)
    as [Hwf Hk]. fold f in Hwf, Hk.
  pose proof (getFormat_keyed font sz col f Hwf Hk) as [Hkey' _].
  repeat split.
  - apply (Hkey' _ _ (getFormat_stored font sz col f)).
  - apply Hwf.
  - apply Hk.
Qed.

(** X4.  On a factory in which stored pointers designate made formats
    and no two keys store one pointer, two requests whose keys differ
    return different instances. *)
Theorem different_keys_different_instances
    (font1 font2 : string) (size1 size2 : Z) (color1 color2 : string)
    (f : CharacterFormatFactory.t)
    (Hwf : factory_wf f)
    (Hkeys : CharacterFormatFactory.getKey font1 size1 color1
             <> CharacterFormatFactory.getKey font2 size2 color2) :
  fst (fst (CharacterFormatFactory.getFormat font1 size1 color1 f))
  <> fst (fst (CharacterFormatFactory.getFormat font2 size2 color2
                 (snd (fst (CharacterFormatFactory.getFormat font1 size1 color1 f))))).
Proof.
  exact (getFormat_different_keys_different_instances
           font1 font2 size1 size2 color1 color2 f Hwf Hkeys).
Qed.

Lemma different_keys_different_instances_sizes :
  factory_wf CharacterFormatFactory.empty
  /\ CharacterFormatFactory.getKey "Arial" 12 "Black"
     <> CharacterFormatFactory.getKey "Arial" 14 "Black"
  /\ fst (fst (CharacterFormatFactory.getFormat "Arial" 12 "Black"
                 CharacterFormatFactory.empty))
     <> fst (fst (CharacterFormatFactory.getFormat "Arial" 14 "Black"
                    (snd (fst (CharacterFormatFactory.getFormat "Arial" 12 "Black"
                                 CharacterFormatFactory.empty))))).
Proof.
  assert (Hk : CharacterFormatFactory.getKey "Arial" 12 "Black"
               <> CharacterFormatFactory.getKey "Arial" 14 "Black").
  { vm_compute. discriminate. }
  exact (conj factory_wf_empty (conj Hk
    (different_keys_different_instances "Arial" "Arial" 12 14 "Black" "Black"
       CharacterFormatFactory.empty factory_wf_empty Hk))).
Defined.

(** *** Keys of fonts without underscore *)

Lemma no_underscore_app (s1 s2 : string) :
  no_underscore (s1 +:+ s2) = no_underscore s1 && no_underscore s2.
Proof.
  induction s1 as [|c s1 IH]; [reflexivity|].
  simpl. rewrite IH, andb_assoc. reflexivity.
Qed.

Lemma pretty_N_go_no_underscore (x : N) (s : string) :
  no_underscore s = true -> no_underscore (pretty_N_go x s) = true.
Proof.
  revert s. induction (N.lt_wf_0 x) as [x _ IH]. intros s Hs.
  destruct (decide (x = 0)%N) as [->|Hx].
  - rewrite pretty_N_go_0. exact Hs.
  - rewrite pretty_N_go_step by lia.
    apply IH; [apply N.div_lt; lia|].
    simpl. rewrite Hs, andb_true_r.
    unfold pretty_N_char. repeat case_match; reflexivity.
Qed.

Lemma to_string_no_underscore (z : Z) : no_underscore (to_string z) = true.
Proof.
  unfold to_string, pretty, pretty_Z.
  assert (HN : forall n : N, no_underscore (pretty n) = true).
  { intros n. unfold pretty, pretty_N. case_decide; [reflexivity|].
    apply pretty_N_go_no_underscore. reflexivity. }
  destruct z as [|p|p]; [reflexivity|apply (HN (Npos p))|].
  rewrite no_underscore_app. simpl. apply (HN (Npos p)).
Qed.

Lemma split_at_underscore (a b x y : string) :
  no_underscore a = true -> no_underscore b = true ->
  a +:+ "_" +:+ x = b +:+ "_" +:+ y -> a = b /\ x = y.
Proof.
  revert b. induction a as [|c a IH]; intros [|d b] Ha Hb Heq.
  - change (String (Ascii.ascii_of_nat 95) x = String (Ascii.ascii_of_nat 95) y) in Heq.
    injection Heq as ->. split; reflexivity.
  - change (String (Ascii.ascii_of_nat 95) x = String d (b +:+ "_" +:+ y)) in Heq.
    injection Heq as <- _. simpl in Hb. discriminate Hb.
  - change (String c (a +:+ "_" +:+ x) = String (Ascii.ascii_of_nat 95) y) in Heq.
    injection Heq as -> _. simpl in Ha. discriminate Ha.
  - change (String c (a +:+ "_" +:+ x) = String d (b +:+ "_" +:+ y)) in Heq.
    injection Heq as -> Heq. simpl in Ha, Hb.
    apply andb_true_iff in Ha as [_ Ha]. apply andb_true_iff in Hb as [_ Hb].
    destruct (IH b Ha Hb Heq) as [-> ->]. split; reflexivity.
Qed.

Lemma getKey_inj (font1 font2 : string) (size1 size2 : Z) (color1 color2 : string) :
  no_underscore font1 = true -> no_underscore font2 = true ->
  CharacterFormatFactory.getKey font1 size1 color1
  = CharacterFormatFactory.getKey font2 size2 color2 ->
  font1 = font2 /\ size1 = size2 /\ color1 = color2.
Proof.
  unfold CharacterFormatFactory.getKey. intros H1 H2 Heq.
  apply split_at_underscore in Heq as [-> Heq]; [|assumption..].
  apply split_at_underscore in Heq as [Hsz ->]; [|apply to_string_no_underscore..].
  apply (inj pretty) in Hsz. subst. repeat split.
Qed.

(** X5.  When the font names hold no underscore, the key tells the
    triples apart: equal keys come from equal triples only, and on a
    factory as in X4 two requests that differ in font, size or colour
    return different instances. *)
Theorem underscore_free_fonts_distinct_instances
    (font1 font2 : string) (size1 size2 : Z) (color1 color2 : string)
    (f : CharacterFormatFactory.t)
    (Hwf : factory_wf f)
    (Hfont1 : no_underscore font1 = true)
    (Hfont2 : no_underscore font2 = true)
    (Hdiff : (font1, size1, color1) <> (font2, size2, color2)) :
  CharacterFormatFactory.getKey font1 size1 color1
  <> CharacterFormatFactory.getKey font2 size2 color2
  /\ fst (fst (CharacterFormatFactory.getFormat font1 size1 color1 f))
     <> fst (fst (CharacterFormatFactory.getFormat font2 size2 color2
                    (snd (fst (CharacterFormatFactory.getFormat font1 size1 color1 f))))).
Proof.
  assert (Hk : CharacterFormatFactory.getKey font1 size1 color1
               <> CharacterFormatFactory.getKey font2 size2 color2).
  { intros Heq. apply Hdiff.
    destruct (getKey_inj _ _ _ _ _ _ Hfont1 Hfont2 Heq) as (-> & -> & ->). reflexivity. }
  split; [exact Hk|].
  exact (getFormat_different_keys_different_instances
           font1 font2 size1 size2 color1 color2 f Hwf Hk).
Qed.

Lemma underscore_free_fonts_distinct_instances_colors :
  factory_wf CharacterFormatFactory.empty
  /\ no_underscore "Arial" = true
  /\ no_underscore "Times" = true
  /\ ("Arial", 12%Z, "2_b") <> ("Times", 12%Z, "2_b")
  /\ (CharacterFormatFactory.getKey "Arial" 12 "2_b"
      <> CharacterFormatFactory.getKey "Times" 12 "2_b"
      /\ fst (fst (CharacterFormatFactory.getFormat "Arial" 12 "2_b"
                     CharacterFormatFactory.empty))
         <> fst (fst (CharacterFormatFactory.getFormat "Times" 12 "2_b"
                        (snd (fst (CharacterFormatFactory.getFormat "Arial" 12 "2_b"
                                     CharacterFormatFactory.empty)))))).
Proof.
  assert (Hd : ("Arial", 12%Z, "2_b") <> ("Times", 12%Z, "2_b")) by discriminate.
  exact (conj factory_wf_empty (conj eq_refl (conj eq_refl (conj Hd
    (underscore_free_fonts_distinct_instances "Arial" "Times" 12 12 "2_b" "2_b"
       CharacterFormatFactory.empty factory_wf_empty eq_refl eq_refl Hd))))).
Defined.

(** ** Drawing, continued *)

Lemma draw_Bold_other (w : DocumentElement) :
  is_paragraph w = false ->
  draw (BoldDecorator w) = (BoldDecorator (fst (draw w)), snd (draw w)).
Proof.
  destruct w; try discriminate; intros _; simpl; repeat case_match; reflexivity.
Qed.

Lemma draw_Italic_other (w : DocumentElement) :
  is_paragraph w = false ->
  draw (ItalicDecorator w) = (ItalicDecorator (fst (draw w)), snd (draw w)).
Proof.
  destruct w; try discriminate; intros _; simpl; repeat case_match; reflexivity.
Qed.

Lemma draw_is_paragraph (w : DocumentElement) :
  is_paragraph (fst (draw w)) = is_paragraph w.
Proof.
  destruct w; try reflexivity.
  - rewrite draw_Section. reflexivity.
  - destruct (is_paragraph w) eqn:Hw.
    + destruct w; try discriminate. reflexivity.
    + rewrite draw_Bold_other by exact Hw. reflexivity.
  - destruct (is_paragraph w) eqn:Hw.
    + destruct w; try discriminate. reflexivity.
    + rewrite draw_Italic_other by exact Hw. reflexivity.
  - simpl. destruct realImage; reflexivity.
Qed.

Lemma draw_children_settled (ch : list DocumentElement) :
  Forall settled ch ->
  materializations (snd (draw_children ch)) = sum_list (map unloaded ch)
  /\ sum_list (map unloaded (fst (draw_children ch))) = 0
  /\ fst (draw_children (fst (draw_children ch))) = fst (draw_children ch)
  /\ backend_calls (snd (draw_children (fst (draw_children ch))))
     = backend_calls (snd (draw_children ch)).
Proof.
  induction 1 as [|c cs (Hm & Hu & Hf & Hb) _ (IHm & IHu & IHf & IHb)].
  - repeat split.
  - rewrite draw_children_cons. cbn [fst snd].
    rewrite draw_children_cons. cbn [fst snd].
    rewrite materializations_app, !backend_calls_app.
    simpl. rewrite Hm, Hu, Hf, Hb, IHm, IHu, IHf, IHb. repeat split.
Qed.

Lemma draw_settled (e : DocumentElement) : settled e.
Proof.
  induction e as [c f|p|r c|ch name IH|w IH|w IH|p r|x y w h]
    using DocumentElement_tree_ind; try (repeat split; fail).
  - destruct (draw_children_settled ch IH) as (Hm & Hu & Hf & Hb).
    unfold settled. rewrite !draw_Section. cbn [fst snd].
    rewrite draw_Section. cbn [fst snd].
    repeat split.
    + simpl. rewrite materializations_app, Hm. simpl. lia.
    + exact Hu.
    + rewrite Hf. reflexivity.
    + simpl. rewrite !backend_calls_app, Hb. reflexivity.
  - destruct (is_paragraph w) eqn:Hw.
    + destruct w; try discriminate. repeat split.
    + destruct IH as (Hm & Hu & Hf & Hb). unfold settled.
      rewrite (draw_Bold_other w Hw). cbn [fst snd].
      rewrite (draw_Bold_other (fst (draw w))) by (rewrite draw_is_paragraph; exact Hw).
      simpl. rewrite Hf. repeat split; assumption.
  - destruct (is_paragraph w) eqn:Hw.
    + destruct w; try discriminate. repeat split.
    + destruct IH as (Hm & Hu & Hf & Hb). unfold settled.
      rewrite (draw_Italic_other w Hw). cbn [fst snd].
      rewrite (draw_Italic_other (fst (draw w))) by (rewrite draw_is_paragraph; exact Hw).
      simpl. rewrite Hf. repeat split; assumption.
  - destruct r; repeat split.
Qed.

Lemma draw_times_settled (n : nat) (e : DocumentElement) :
  unloaded e = 0 ->
  fst (draw e) = e ->
  fst (draw_times n e) = e /\ materializations (snd (draw_times n e)) = 0.
Proof.
  intros Hu Hf. induction n as [|n [IH1 IH2]]; [split; reflexivity|].
  simpl. pose proof (draw_settled e) as (Hm & _).
  destruct (draw e) as [e1 t1]. simpl in Hf, Hm. subst e1.
  destruct (draw_times n e) as [e2 t2]. simpl in *.
  split; [exact IH1|]. rewrite materializations_app. lia.
Qed.

(** X6.  A [draw] makes one image for every image proxy without an image
    that it comes to, and leaves none without.  A second [draw] then
    changes nothing, makes no image and makes the renderer calls of the
    first; so however often an element is drawn, at least once, the
    images made are those of the first time. *)
Theorem draw_loads_once_and_settles (e : DocumentElement) (n : nat) :
  materializations (snd (draw e)) = unloaded e
  /\ unloaded (fst (draw e)) = 0
  /\ fst (draw (fst (draw e))) = fst (draw e)
  /\ materializations (snd (draw (fst (draw e)))) = 0
  /\ backend_calls (snd (draw (fst (draw e)))) = backend_calls (snd (draw e))
  /\ fst (draw_times (S n) e) = fst (draw e)
  /\ materializations (snd (draw_times (S n) e)) = unloaded e.
Proof.
  pose proof (draw_settled e) as (Hm & Hu & Hf & Hb).
  pose proof (draw_settled (fst (draw e))) as (Hm' & _).
  pose proof (draw_times_settled n (fst (draw e)) Hu Hf) as [Ht1 Ht2].
  repeat split; try assumption.
  - rewrite Hm'. exact Hu.
  - simpl. destruct (draw e) as [e1 t1]. simpl in *.
    destruct (draw_times n e1) as [e2 t2]. exact Ht1.
  - simpl. destruct (draw e) as [e1 t1]. simpl in *.
    destruct (draw_times n e1) as [e2 t2]. simpl in *.
    rewrite materializations_app. lia.
Qed.

Lemma nesting_app (d d1 : nat) (cs1 cs2 : list RenderCall) :
  nesting d cs1 = Some d1 -> nesting d (cs1 ++ cs2) = nesting d1 cs2.
Proof.
  revert d. induction cs1 as [|c cs1 IH]; intros d H.
  - injection H as ->. reflexivity.
  - destruct c; simpl in *; try (apply IH; exact H).
    destruct d; [discriminate H | apply IH; exact H].
Qed.

Lemma draw_children_nested (ch : list DocumentElement) :
  Forall (fun e => forall d, nesting d (backend_calls (snd (draw e))) = Some d) ch ->
  forall d, nesting d (backend_calls (snd (draw_children ch))) = Some d.
Proof.
  induction 1 as [|c cs Hc _ IH]; intros d; [reflexivity|].
  rewrite draw_children_cons. cbn [snd]. rewrite backend_calls_app.
  rewrite (nesting_app d d _ _ (Hc d)). apply IH.
Qed.

Lemma draw_nested (e : DocumentElement) :
  forall d, nesting d (backend_calls (snd (draw e))) = Some d.
Proof.
  induction e as [c f|p|r c|ch name IH|w IH|w IH|p r|x y w h]
    using DocumentElement_tree_ind; intros d; try reflexivity.
  - rewrite draw_Section. cbn [snd]. simpl. rewrite backend_calls_app.
    rewrite (nesting_app (S d) (S d) _ _ (draw_children_nested ch IH (S d))).
    reflexivity.
  - rewrite draw_Bold_trace. destruct w; try reflexivity; apply IH.
  - rewrite draw_Italic_trace. destruct w; try reflexivity; apply IH.
  - destruct r; reflexivity.
Qed.

(** X7.  The section calls of a [draw] are well nested: followed from
    any depth, no [endSection] comes with no section open and the depth
    at the end is the depth at the start; the same holds of the calls of
    [Document::draw] from depth 0. *)
Theorem draw_sections_are_nested (e : DocumentElement) (doc : Document) (d : nat) :
  nesting d (backend_calls (snd (draw e))) = Some d
  /\ nesting 0 (backend_calls (snd (Document_draw doc))) = Some 0.
Proof.
  split; [apply draw_nested|].
  pose proof (draw_nested (as_element (rootSection doc)) 0) as H.
  unfold as_element in H. rewrite draw_Section in H. cbn [snd] in H.
  unfold Document_draw, Section_draw.
  destruct (draw_children (children (rootSection doc))) as [ch' t]. exact H.
Qed.

Lemma clone_draw_children (ch : list DocumentElement) :
  Forall (fun e => clone (fst (draw e)) = clone e) ch ->
  map clone (fst (draw_children ch)) = map clone ch.
Proof.
  induction 1 as [|c cs Hc _ IH]; [reflexivity|].
  rewrite draw_children_cons. simpl. rewrite Hc, IH. reflexivity.
Qed.

Lemma clone_draw (e : DocumentElement) : clone (fst (draw e)) = clone e.
Proof.
  induction e as [c f|p|r c|ch name IH|w IH|w IH|p r|x y w h]
    using DocumentElement_tree_ind; try reflexivity.
  - rewrite draw_Section. cbn [fst]. rewrite !clone_Section.
    rewrite (clone_draw_children ch IH). reflexivity.
  - destruct (is_paragraph w) eqn:Hw.
    + destruct w; try discriminate. reflexivity.
    + rewrite (draw_Bold_other w Hw). simpl. rewrite IH. reflexivity.
  - destruct (is_paragraph w) eqn:Hw.
    + destruct w; try discriminate. reflexivity.
    + rewrite (draw_Italic_other w Hw). simpl. rewrite IH. reflexivity.
  - destruct r; reflexivity.
Qed.

Lemma getType_clone (e : DocumentElement) : getType (clone e) = getType e.
Proof.
  induction e as [c f|p|r c|ch name IH|w IH|w IH|p r|x y w h]
    using DocumentElement_tree_ind; try reflexivity; assumption.
Qed.

(** X8.  A [draw] changes nothing of an element but the images held by
    its proxies: the element drawn has the clone and the type of the
    element before, and [Document::draw] keeps the observers, the state
    and the name of the root section, and the number of its children. *)
Theorem draw_changes_image_caches_only (e : DocumentElement) (doc : Document) :
  clone (fst (draw e)) = clone e
  /\ getType (fst (draw e)) = getType e
  /\ observers (fst (Document_draw doc)) = observers doc
  /\ currentState (fst (Document_draw doc)) = currentState doc
  /\ sectionName (rootSection (fst (Document_draw doc))) = sectionName (rootSection doc)
  /\ map clone (children (rootSection (fst (Document_draw doc))))
     = map clone (children (rootSection doc)).
Proof.
  split; [apply clone_draw|].
  split; [rewrite <- (getType_clone (fst (draw e))), clone_draw; apply getType_clone|].
  unfold Document_draw, Section_draw.
  pose proof (clone_draw_children (children (rootSection doc))) as H.
  destruct (draw_children (children (rootSection doc))) as [ch' t]. simpl in *.
  repeat split. apply H, Forall_forall. intros c _. apply clone_draw.
Qed.

(** ** Observers and states *)

Lemma elem_of_notify (o : addr) (d' : Document) (os : list addr) (d : Document) :
  EvChanged o d' ∈ map (fun o' => EvChanged o' d) os -> o ∈ os.
Proof.
  intros H. apply list_elem_of_fmap in H as (o' & Heq & Hin).
  injection Heq as -> _. exact Hin.
Qed.

(** X9.  After [detach] of an observer, [addElement] sends it nothing,
    however often it had been attached, and still notifies every other
    observer, in the order they were in; a [detach] after an [attach] of
    the same observer is the [detach] alone. *)
Theorem detach_stops_notifications (d : Document) (o : addr) (e : DocumentElement) :
  (forall doc', EvChanged o doc' ∉ snd (addElement e (detach o d)))
  /\ (forall doc', EvChanged o doc' ∉ snd (addElement e (detach o (attach o (attach o d)))))
  /\ snd (addElement e (detach o d))
     = map (fun o' => EvChanged o' (fst (addElement e (detach o d))))
         (filter (fun o' => o' <> o) (observers d))
  /\ (forall o', o' <> o -> o' ∈ observers d ->
        EvChanged o' (fst (addElement e (detach o d))) ∈ snd (addElement e (detach o d)))
  /\ detach o (attach o d) = detach o d.
Proof.
  assert (Hda : detach o (attach o d) = detach o d).
  { unfold detach, attach. simpl. f_equal.
    rewrite filter_app, filter_cons_False by (intros H; apply H; reflexivity).
    rewrite filter_nil. apply app_nil_r. }
  assert (Htr : forall d0, snd (addElement e (detach o d0))
                = map (fun o' => EvChanged o' (fst (addElement e (detach o d0))))
                    (filter (fun o' => o' <> o) (observers d0))).
  { intros d0. unfold addElement, notifyObservers. simpl. apply notify_each_map. }
  assert (Hno : forall d0 doc', EvChanged o doc' ∉ snd (addElement e (detach o d0))).
  { intros d0 doc' Hin. rewrite Htr in Hin. apply elem_of_notify in Hin.
    apply list_elem_of_filter in Hin as [Hne _]. apply Hne. reflexivity. }
  repeat split.
  - apply Hno.
  - apply Hno.
  - apply Htr.
  - intros o' Hne Hin. rewrite Htr. apply list_elem_of_fmap.
    exists o'. split; [reflexivity|]. apply list_elem_of_filter. split; assumption.
  - exact Hda.
Qed.

(** X10.  For an observer that is not attached, [attach] followed by
    [detach] gives back the document as it was. *)
Theorem attach_detach_round_trip (d : Document) (o : addr)
    (Hfresh : o ∉ observers d) :
  detach o (attach o d) = d.
Proof.
  destruct d as [root os st ps mt mb ml mr h f]. unfold detach, attach. simpl in *.
  f_equal. rewrite filter_app, filter_cons_False by (intros H; apply H; reflexivity).
  rewrite filter_nil, app_nil_r.
  induction os as [|o' os IH]; [reflexivity|].
  apply not_elem_of_cons in Hfresh as [Hne Hos].
  rewrite filter_cons_True by (intros ->; apply Hne; reflexivity).
  rewrite (IH Hos). reflexivity.
Qed.

Lemma attach_detach_new_document :
  (7 ∉ observers (fst Document_new))
  /\ detach 7 (attach 7 (fst Document_new)) = fst Document_new.
Proof.
  assert (H : 7 ∉ observers (fst Document_new)) by (simpl; apply not_elem_of_nil).
  exact (conj H (attach_detach_round_trip (fst Document_new) 7 H)).
Defined.

(** X11.  No state locks the document: [setState] goes from every state
    to every state and changes the state only; the notice of [edit] is
    that of the state set last, and the three notices differ, so the
    notice tells the state. *)
Theorem setState_is_never_refused (d d' : Document) (s1 s2 : DocumentState) :
  currentState (fst (setState s2 (fst (setState s1 d)))) = s2
  /\ rootSection (fst (setState s2 d)) = rootSection d
  /\ observers (fst (setState s2 d)) = observers d
  /\ snd (setState s2 d)
     = [EvPrint ("[State] Document state changed to: " +:+ getStateName s2)]
  /\ edit (fst (setState s2 (fst (setState s1 d)))) = edit (fst (setState s2 d))
  /\ (edit d = edit d' <-> currentState d = currentState d').
Proof.
  repeat split.
  - unfold edit. destruct (currentState d), (currentState d'); intros H;
      first [reflexivity | discriminate H].
  - unfold edit. intros ->. reflexivity.
Qed.

(** ** The command history, continued *)

(** X12.  For every kind of command: [undo] and [redo] move one command
    between the two stacks and lose none; [undo] followed by [redo] puts
    the command undone and executed again back on top of the undo stack,
    both stacks otherwise as before; and after [executeCommand] a [redo]
    finds nothing to redo and changes nothing. *)
Theorem history_keeps_its_commands
    {W C : Type} {I : Command.Interface W C}
    (h : CommandHistory.t C) (cmd : C) (rest redos : list C) (w w' : W) :
  length (CommandHistory.undoStack (fst (fst (CommandHistory.undo h w))))
    + length (CommandHistory.redoStack (fst (fst (CommandHistory.undo h w))))
  = length (CommandHistory.undoStack h) + length (CommandHistory.redoStack h)
  /\ length (CommandHistory.undoStack (fst (fst (CommandHistory.redo h w))))
       + length (CommandHistory.redoStack (fst (fst (CommandHistory.redo h w))))
     = length (CommandHistory.undoStack h) + length (CommandHistory.redoStack h)
  /\ (let undone := CommandHistory.undo (CommandHistory.mk (cmd :: rest) redos) w in
      let again := CommandHistory.redo (fst (fst undone)) (snd (fst undone)) in
      fst (fst again)
      = CommandHistory.mk
          (fst (fst (Command.execute (fst (fst (Command.undo cmd w)))
                                     (snd (fst (Command.undo cmd w))))) :: rest)
          redos
      /\ snd (fst again)
         = snd (fst (Command.execute (fst (fst (Command.undo cmd w)))
                                     (snd (fst (Command.undo cmd w))))))
  /\ CommandHistory.redo (fst (fst (CommandHistory.executeCommand cmd h w))) w'
     = (fst (fst (CommandHistory.executeCommand cmd h w)), w',
        [EvPrint "[Command] Nothing to redo"]).
Proof.
  repeat split.
  - unfold CommandHistory.undo. destruct h as [[|c us] rs]; simpl; [reflexivity|].
    destruct (Command.undo c w) as [[c' w1] tr]. simpl. lia.
  - unfold CommandHistory.redo. destruct h as [us [|c rs]]; simpl; [reflexivity|].
    destruct (Command.execute c w) as [[c' w1] tr]. simpl. lia.
  - unfold CommandHistory.undo. simpl.
    destruct (Command.undo cmd w) as [[c1 w1] t1]. unfold CommandHistory.redo. simpl.
    destruct (Command.execute c1 w1) as [[c2 w2] t2]. reflexivity.
  - unfold CommandHistory.undo. simpl.
    destruct (Command.undo cmd w) as [[c1 w1] t1]. unfold CommandHistory.redo. simpl.
    destruct (Command.execute c1 w1) as [[c2 w2] t2]. reflexivity.
  - unfold CommandHistory.executeCommand.
    destruct (Command.execute cmd w) as [[c1 w1] t1]. simpl.
    unfold CommandHistory.redo. simpl. rewrite pop_all_nil. reflexivity.
Qed.

(** X13.  An add command adds at most once until it is undone: whatever
    the command, after one [execute] a second [execute] changes neither
    the command nor the document and writes nothing; and a command made
    with a null element adds nothing at all. *)
Theorem add_command_executes_once (c : AddElementCommand.t) (d d2 : Document) :
  AddElementCommand.executed (fst (fst (AddElementCommand.execute c d))) = true
  /\ AddElementCommand.execute (fst (fst (AddElementCommand.execute c d))) d2
     = (fst (fst (AddElementCommand.execute c d)), d2, [])
  /\ snd (fst (AddElementCommand.execute (AddElementCommand.make None) d)) = d
  /\ (length (children (rootSection (snd (fst (AddElementCommand.execute c d)))))
      <= S (length (children (rootSection d)))).
Proof.
  assert (He : AddElementCommand.executed (fst (fst (AddElementCommand.execute c d))) = true).
  { unfold AddElementCommand.execute. destruct (AddElementCommand.executed c) eqn:Hx.
    - exact Hx.
    - destruct (AddElementCommand.element c), (AddElementCommand.clonedElement c);
        reflexivity. }
  repeat split.
  - exact He.
  - unfold AddElementCommand.execute at 1. rewrite He. reflexivity.
  - unfold AddElementCommand.execute. destruct (AddElementCommand.executed c);
      [simpl; lia|].
    destruct (AddElementCommand.element c), (AddElementCommand.clonedElement c);
      simpl; unfold Section_add; rewrite ?length_app; simpl; lia.
Qed.

(** ** The iterator, continued *)

(** X14.  An iterator made after [addElement] lists what an iterator
    made before lists, followed by the new element and what lies below it
    through sections. *)
Theorem iterator_after_addElement (d : Document) (e : DocumentElement) :
  DocumentIterator.elements (DocumentIterator.make (fst (addElement e d)))
  = DocumentIterator.elements (DocumentIterator.make d) ++ listing e
  /\ listed_below (rootSection (fst (addElement e d)))
     = listed_below (rootSection d) + count_listed e.
Proof.
  unfold DocumentIterator.make. simpl. rewrite !collectElements_listing. simpl.
  unfold Section_add, listed_below. simpl. split.
  - rewrite flat_map_app. simpl. rewrite app_nil_r. reflexivity.
  - rewrite map_app. simpl. unfold sum_list. rewrite foldr_app. simpl.
    generalize (map count_listed (children (rootSection d))). intros l.
    induction l as [|n l IH]; simpl; lia.
Qed.


(** ** Counting words *)

Lemma words_skip_ws (s : string) : words_from false (skip_ws s) = words_from false s.
Proof.
  induction s as [|c s IH]; [reflexivity|].
  simpl. destruct (isspace c) eqn:Hc; [exact IH|].
  simpl. rewrite Hc. reflexivity.
Qed.

Lemma skip_ws_length (s : string) : String.length (skip_ws s) <= String.length s.
Proof.
  induction s as [|c s IH]; [reflexivity|].
  simpl. destruct (isspace c); simpl; lia.
Qed.

Lemma skip_ws_head (s : string) (c : Ascii.ascii) (s' : string) :
  skip_ws s = String c s' -> isspace c = false.
Proof.
  induction s as [|d s IH]; [discriminate|].
  simpl. destruct (isspace d) eqn:Hd; [exact IH|].
  intros [= -> _]. exact Hd.
Qed.

Lemma take_word_rest (s : string) :
  words_from false (snd (take_word s)) = words_from true s
  /\ String.length (snd (take_word s)) <= String.length s.
Proof.
  induction s as [|c s [IH1 IH2]]; [split; reflexivity|].
  simpl. destruct (isspace c) eqn:Hc.
  - simpl. rewrite Hc. split; [reflexivity | lia].
  - destruct (take_word s) as [w rest]. simpl in *. split; [rewrite IH1; lia | lia].
Qed.

Lemma count_loop_words (fuel : nat) :
  forall (s : string) (n : Z),
    String.length s < fuel -> count_loop fuel s n = (n + words s)%Z.
Proof.
  induction fuel as [|fuel IH]; intros s n Hlen; [lia|].
  simpl. unfold extract_word, words.
  rewrite <- (words_skip_ws s).
  pose proof (skip_ws_length s) as Hskip.
  destruct (skip_ws s) as [|c s'] eqn:Hs; [simpl; lia|].
  pose proof (skip_ws_head s c s' Hs) as Hc.
  destruct (take_word_rest s') as [Hw Hl].
  simpl. rewrite Hc. destruct (take_word s') as [w rest]. simpl in *.
  rewrite IH by lia. unfold words. rewrite Hw. lia.
Qed.

Lemma count_words_into_words (s : string) (n : Z) :
  count_words_into s n = (n + words s)%Z.
Proof. unfold count_words_into. apply count_loop_words. lia. Qed.


Lemma words_from_bounds (b : bool) (s : string) :
  (0 <= words_from b s <= Z.of_nat (String.length s))%Z.
Proof.
  revert b. induction s as [|c s IH]; intros b; [simpl; lia|].
  simpl String.length. simpl words_from.
  destruct (isspace c); [specialize (IH false); lia|].
  destruct b; specialize (IH true); lia.
Qed.



(** ** Visitors *)

Lemma sum_listZ_app (l1 l2 : list Z) :
  sum_listZ (l1 ++ l2) = (sum_listZ l1 + sum_listZ l2)%Z.
Proof. induction l1 as [|x l1 IH]; simpl; [|rewrite IH]; lia. Qed.

Lemma sum_list_app (l1 l2 : list nat) :
  sum_list (l1 ++ l2) = sum_list l1 + sum_list l2.
Proof. induction l1 as [|x l1 IH]; simpl; [|rewrite IH]; lia. Qed.

Lemma accept_words_children (ch : list DocumentElement) :
  Forall (fun e => forall v : WordCountVisitor.t,
            WordCountVisitor.wordCount (accept e v)
            = (WordCountVisitor.wordCount v + words_visited e)%Z) ch ->
  forall v : WordCountVisitor.t,
    WordCountVisitor.wordCount (fold_left (fun visitor child => accept child visitor) ch v)
    = (WordCountVisitor.wordCount v + sum_listZ (map words_visited ch))%Z.
Proof.
  induction 1 as [|c cs Hc _ IH]; intros v; simpl; [lia|].
  rewrite IH, Hc. lia.
Qed.

Lemma accept_words (e : DocumentElement) :
  forall v : WordCountVisitor.t,
    WordCountVisitor.wordCount (accept e v)
    = (WordCountVisitor.wordCount v + words_visited e)%Z.
Proof.
  induction e as [c f|p|r c|ch name IH|w IH|w IH|p r|x y w h]
    using DocumentElement_tree_ind; intros v; simpl; try lia.
  - apply count_words_into_words.
  - rewrite (accept_words_children ch IH). reflexivity.
  - apply IH.
  - apply IH.
Qed.



(** ** The status bar *)

Lemma count_children_counts (ch : list DocumentElement) :
  Forall (fun c => forall s : StatusBar.t,
            StatusBar.elementCount (StatusBar.count_child c s)
            = (StatusBar.elementCount s + Z.of_nat (count_listed c))%Z
            /\ StatusBar.wordCount (StatusBar.count_child c s)
               = (StatusBar.wordCount s + words_listed c)%Z) ch ->
  forall s0 : StatusBar.t,
    StatusBar.elementCount (fold_left (fun acc c => StatusBar.count_child c acc) ch s0)
    = (StatusBar.elementCount s0 + Z.of_nat (sum_list (map count_listed ch)))%Z
    /\ StatusBar.wordCount (fold_left (fun acc c => StatusBar.count_child c acc) ch s0)
       = (StatusBar.wordCount s0 + sum_listZ (map words_listed ch))%Z.
Proof.
  induction 1 as [|c cs Hc _ IHcs]; intros s0; simpl; [split; lia|].
  destruct (IHcs (StatusBar.count_child c s0)) as [H1 H2].
  destruct (Hc s0) as [H3 H4]. rewrite H1, H2, H3, H4. split; lia.
Qed.

Lemma count_child_counts (c : DocumentElement) :
  forall s : StatusBar.t,
    StatusBar.elementCount (StatusBar.count_child c s)
    = (StatusBar.elementCount s + Z.of_nat (count_listed c))%Z
    /\ StatusBar.wordCount (StatusBar.count_child c s)
       = (StatusBar.wordCount s + words_listed c)%Z.
Proof.
  induction c as [c f|p|r c|ch name IH|w IH|w IH|p r|x y w h]
    using DocumentElement_tree_ind; intros s; simpl; try (split; lia).
  - split; [lia | apply count_words_into_words].
  - destruct (count_children_counts ch IH
                (StatusBar.mk (StatusBar.wordCount s) (StatusBar.elementCount s + 1)))
      as [H1 H2].
    rewrite H1, H2. simpl. split; lia.
Qed.

Lemma words_visited_split (e : DocumentElement) :
  words_visited e = (words_listed e + words_wrapped e)%Z.
Proof.
  induction e as [c f|p|r c|ch name IH|w IH|w IH|p r|x y w h]
    using DocumentElement_tree_ind; simpl; try lia.
  induction IH as [|c cs Hc _ IHcs]; simpl; lia.
Qed.

Lemma iterator_elements_length (d : Document) :
  length (DocumentIterator.elements (DocumentIterator.make d))
  = sum_list (map count_listed (children (rootSection d))).
Proof.
  unfold DocumentIterator.make. simpl. rewrite collectElements_listing. simpl.
  apply length_flat_map_sum, Forall_forall. intros e _. apply length_listing.
Qed.

(** X18.  The status bar counts the elements the iterator lists: after
    [onDocumentChanged] its element count is the number of elements of an
    iterator made from the document, whatever the counts were before, and
    it writes one line. *)
Theorem status_bar_counts_iterator_elements (d : Document) (s : StatusBar.t) :
  StatusBar.elementCount (fst (StatusBar.onDocumentChanged d s))
  = Z.of_nat (length (DocumentIterator.elements (DocumentIterator.make d)))
  /\ fst (StatusBar.onDocumentChanged d s)
     = fst (StatusBar.onDocumentChanged d StatusBar.make)
  /\ length (snd (StatusBar.onDocumentChanged d s)) = 1.
Proof.
  repeat split.
  rewrite iterator_elements_length.
  unfold StatusBar.onDocumentChanged, StatusBar.countElements. cbn [fst].
  destruct (count_children_counts (children (rootSection d))) with (s0 := StatusBar.mk 0 0)
    as [H1 _].
  { apply Forall_forall. intros c _. apply count_child_counts. }
  rewrite H1. simpl. reflexivity.
Qed.

Lemma words_visited_nonneg (e : DocumentElement) : (0 <= words_visited e)%Z.
Proof.
  induction e as [c f|p|r c|ch name IH|w IH|w IH|p r|x y w h]
    using DocumentElement_tree_ind; simpl; try lia.
  - pose proof (words_from_bounds false c). unfold words. lia.
  - induction IH as [|c cs Hc _ IHcs]; simpl; lia.
Qed.

Lemma words_wrapped_nonneg (e : DocumentElement) : (0 <= words_wrapped e)%Z.
Proof.
  induction e as [c f|p|r c|ch name IH|w IH|w IH|p r|x y w h]
    using DocumentElement_tree_ind; simpl; try lia.
  - induction IH as [|c cs Hc _ IHcs]; simpl; lia.
  - apply words_visited_nonneg.
  - apply words_visited_nonneg.
Qed.

(** X19.  The status bar misses the words inside decorators: the count
    of the word count visitor over the root section is the word count of
    the status bar plus the words of the paragraphs inside decorators, so
    the status bar never shows more words than the visitor counts. *)
Theorem status_bar_misses_decorated_words (d : Document) (s : StatusBar.t) :
  WordCountVisitor.getWordCount (accept (as_element (rootSection d)) WordCountVisitor.make)
  = (StatusBar.wordCount (fst (StatusBar.onDocumentChanged d s))
     + words_wrapped (as_element (rootSection d)))%Z
  /\ (StatusBar.wordCount (fst (StatusBar.onDocumentChanged d s))
      <= WordCountVisitor.getWordCount
           (accept (as_element (rootSection d)) WordCountVisitor.make))%Z
  /\ StatusBar.wordCount (fst (StatusBar.onDocumentChanged (fst (addElement
         (BoldDecorator (Paragraph "Bold text" None)) d)) s))
     = StatusBar.wordCount (fst (StatusBar.onDocumentChanged d s)).
Proof.
  assert (Hbar : forall d0, StatusBar.wordCount (fst (StatusBar.onDocumentChanged d0 s))
                 = sum_listZ (map words_listed (children (rootSection d0)))).
  { intros d0. unfold StatusBar.onDocumentChanged, StatusBar.countElements. cbn [fst].
    destruct (count_children_counts (children (rootSection d0))) with (s0 := StatusBar.mk 0 0)
      as [_ H2].
    { apply Forall_forall. intros c _. apply count_child_counts. }
    rewrite H2. simpl. lia. }
  assert (Hvis : WordCountVisitor.getWordCount
                   (accept (as_element (rootSection d)) WordCountVisitor.make)
                 = (StatusBar.wordCount (fst (StatusBar.onDocumentChanged d s))
                    + words_wrapped (as_element (rootSection d)))%Z).
  { unfold WordCountVisitor.getWordCount. rewrite accept_words, Hbar.
    rewrite words_visited_split. simpl. lia. }
  repeat split.
  - exact Hvis.
  - rewrite Hvis. pose proof (words_wrapped_nonneg (as_element (rootSection d))). lia.
  - rewrite !Hbar. simpl. unfold Section_add. rewrite map_app, sum_listZ_app. simpl. lia.
Qed.

(** ** The XML exporter *)

Lemma xml_accept (e : DocumentElement) :
  forall v : XMLExportVisitor.t,
    exists lines : list string,
      XMLExportVisitor.xml (accept e v) = XMLExportVisitor.xml v ++ lines
      /\ length lines = visits e
      /\ XMLExportVisitor.depth (accept e v)
         = (XMLExportVisitor.depth v + Z.of_nat (sections_visited e))%Z.
Proof.
  induction e as [c f|p|r c|ch name IH|w IH|w IH|p r|x y w h]
    using DocumentElement_tree_ind; intros v;
    try (eexists; simpl; repeat split; first [reflexivity | lia]).
  - change (accept (Section ch name) v)
      with (fold_left (fun visitor child => accept child visitor) ch
              (visitSection ch name v)).
    assert (H : forall v0 : XMLExportVisitor.t,
              exists lines : list string,
                XMLExportVisitor.xml (fold_left (fun visitor child => accept child visitor) ch v0)
                = XMLExportVisitor.xml v0 ++ lines
                /\ length lines = sum_list (map visits ch)
                /\ XMLExportVisitor.depth
                     (fold_left (fun visitor child => accept child visitor) ch v0)
                   = (XMLExportVisitor.depth v0
                      + Z.of_nat (sum_list (map sections_visited ch)))%Z).
    { induction IH as [|c cs Hc _ IHcs]; intros v0; simpl.
      - exists []. rewrite app_nil_r. repeat split. lia.
      - destruct (Hc v0) as (l1 & Hx1 & Hl1 & Hd1).
        destruct (IHcs (accept c v0)) as (l2 & Hx2 & Hl2 & Hd2).
        exists (l1 ++ l2). rewrite Hx2, Hx1, Hd2, Hd1, <- app_assoc, length_app.
        repeat split; lia. }
    destruct (H (visitSection ch name v)) as (lines & Hx & Hl & Hd).
    exists ((XMLExportVisitor.indent v +:+ "<section>") :: lines).
    rewrite Hx, Hd. simpl. rewrite <- app_assoc. repeat split; simpl; lia.
  - apply IH.
  - apply IH.
  - exists []. simpl. rewrite app_nil_r. repeat split. lia.
Qed.

(** X20.  The XML exporter keeps what it has written and adds one line
    per visit; its depth only grows, by one for every section visited, as
    no visit closes a section.  So a paragraph that follows other
    children of a section is indented by all the sections visited before
    it, those already left included. *)
Theorem xml_exporter_never_closes_a_section
    (e : DocumentElement) (v : XMLExportVisitor.t)
    (ch : list DocumentElement) (name content : string) (format : option addr) :
  (exists lines : list string,
     XMLExportVisitor.getXML (accept e v) = XMLExportVisitor.getXML v ++ lines
     /\ length lines = visits e)
  /\ XMLExportVisitor.depth (accept e v)
     = (XMLExportVisitor.depth v + Z.of_nat (sections_visited e))%Z
  /\ last (XMLExportVisitor.getXML
             (accept (Section (ch ++ [Paragraph content format]) name) v))
     = Some (spaces (Z.to_nat ((XMLExportVisitor.depth v + 1
                                + Z.of_nat (sum_list (map sections_visited ch))) * 2))
             +:+ "<paragraph>" +:+ content +:+ "</paragraph>").
Proof.
  destruct (xml_accept e v) as (lines & Hx & Hl & Hd).
  split; [exists lines; split; assumption|]. split; [exact Hd|].
  destruct (xml_accept (Section ch name) v) as (l2 & _ & _ & Hd2).
  change (accept (Section ch name) v)
    with (fold_left (fun visitor child => accept child visitor) ch
            (visitSection ch name v)) in Hd2.
  change (accept (Section (ch ++ [Paragraph content format]) name) v)
    with (fold_left (fun visitor child => accept child visitor)
            (ch ++ [Paragraph content format]) (visitSection ch name v)).
  rewrite fold_left_app.
  set (v1 := fold_left (fun visitor child => accept child visitor) ch
               (visitSection ch name v)) in *.
  change (last (XMLExportVisitor.xml v1
                ++ [XMLExportVisitor.indent v1 +:+ "<paragraph>" +:+ content
                    +:+ "</paragraph>"])
          = Some (spaces (Z.to_nat ((XMLExportVisitor.depth v + 1
                                     + Z.of_nat (sum_list (map sections_visited ch))) * 2))
                  +:+ "<paragraph>" +:+ content +:+ "</paragraph>")).
  rewrite last_snoc. unfold XMLExportVisitor.indent. rewrite Hd2.
  do 4 f_equal. simpl. lia.
Qed.

(** ** The validator *)

(** X21.  Whatever the checks of a validator are, [validate] runs them in
    the order structure, spelling, grammar, each on the validator as the
    check before left it, and stops at the first that fails: its result
    is true exactly when the three checks it ran returned true, the
    trace holds nothing of a check after a failed one, and the line that
    validation passed is written only after three passed checks.  The
    basic and the advanced validator always pass. *)
Theorem validate_stops_at_first_failure {V : Type} {K : DocumentValidator.Checks V} (v : V) :
  let s := DocumentValidator.checkStructure v in
  let p := DocumentValidator.checkSpelling (fst (fst s)) in
  let g := DocumentValidator.checkGrammar (fst (fst p)) in
  snd (fst (DocumentValidator.validate v))
  = snd (fst s) && snd (fst p) && snd (fst g)
  /\ snd (DocumentValidator.validate v)
     = EvPrint "[Validator] Starting validation..."
       :: snd s
       ++ (if snd (fst s)
           then snd p
                ++ (if snd (fst p)
                    then snd g
                         ++ (if snd (fst g)
                             then [EvPrint "[Validator] Validation passed!"]
                             else [])
                    else [])
           else [])
  /\ fst (fst (DocumentValidator.validate v))
     = (if snd (fst s)
        then if snd (fst p) then fst (fst g) else fst (fst p)
        else fst (fst s))
  /\ snd (fst (DocumentValidator.validate mkBasicValidator)) = true
  /\ snd (fst (DocumentValidator.validate mkAdvancedValidator)) = true.
Proof.
  intros s p g. subst s p g. unfold DocumentValidator.validate.
  destruct (DocumentValidator.checkStructure v) as [[v1 [|]] t1]; simpl;
    [|repeat split; rewrite app_nil_r; reflexivity].
  destruct (DocumentValidator.checkSpelling v1) as [[v2 [|]] t2]; simpl;
    [|repeat split; rewrite app_nil_r; reflexivity].
  destruct (DocumentValidator.checkGrammar v2) as [[v3 [|]] t3]; simpl;
    repeat split; rewrite ?app_nil_r; reflexivity.
Qed.

(** ** The chain of handlers *)

Lemma first_handled_short (l : list EventHandler.t) (event : string) :
  length (first_handled l event) <= 1.
Proof.
  induction l as [|obj l IH]; simpl; [lia|].
  destruct (EventHandler.handled_by (EventHandler.kind obj) event); simpl; lia.
Qed.

(** X22.  Along a chain of handlers that ends in a null pointer, with
    fuel for every handler of the chain, [handleEvent] returns; what it
    has written is the line of the first handler of the chain that
    handles the event, and nothing when there is none: an event is
    handled at most once and an event nobody handles is dropped. *)
Theorem chain_handles_event_at_first_taker
    (heap : gmap addr EventHandler.t) (h : addr) (l : list EventHandler.t)
    (event : string) (fuel : nat)
    (Hchain : chain heap h l)
    (Hfuel : length l <= fuel) :
  EventHandler.handleEvent fuel heap h event = EventHandler.Returned (first_handled l event)
  /\ length (first_handled l event) <= 1.
Proof.
  split; [|apply first_handled_short].
  revert fuel Hfuel. induction Hchain as [h obj Hh Hn|h next obj rest Hh Hn _ IH];
    intros [|fuel] Hfuel; simpl in Hfuel; try lia; simpl; rewrite Hh.
  - destruct (EventHandler.handled_by (EventHandler.kind obj) event); [reflexivity|].
    rewrite Hn. reflexivity.
  - destruct (EventHandler.handled_by (EventHandler.kind obj) event); [reflexivity|].
    rewrite Hn. apply IH. lia.
Qed.

Lemma chain_of_main_handles_keypress :
  chain main_handlers 0
    [EventHandler.setNext (Some 1) (EventHandler.make EventHandler.ClickHandler);
     EventHandler.make EventHandler.KeyPressHandler]
  /\ 2 <= 2
  /\ (EventHandler.handleEvent 2 main_handlers 0 "keypress"
      = EventHandler.Returned
          (first_handled
             [EventHandler.setNext (Some 1) (EventHandler.make EventHandler.ClickHandler);
              EventHandler.make EventHandler.KeyPressHandler] "keypress")
      /\ length (first_handled
                   [EventHandler.setNext (Some 1)
                      (EventHandler.make EventHandler.ClickHandler);
                    EventHandler.make EventHandler.KeyPressHandler] "keypress") <= 1).
Proof.
  assert (Hc : chain main_handlers 0
                 [EventHandler.setNext (Some 1) (EventHandler.make EventHandler.ClickHandler);
                  EventHandler.make EventHandler.KeyPressHandler]).
  { apply (chain_next main_handlers 0 1); [reflexivity | reflexivity |].
    apply chain_last; reflexivity. }
  exact (conj Hc (conj (le_n 2)
    (chain_handles_event_at_first_taker main_handlers 0 _ "keypress" 2 Hc (le_n 2)))).
Defined.

(** X23.  A handler whose [nextHandler] is the handler itself never
    returns from an event it does not handle: no amount of fuel is
    enough. *)
Theorem self_chained_handler_never_returns
    (heap : gmap addr EventHandler.t) (h : addr) (obj : EventHandler.t)
    (event : string) (fuel : nat)
    (Hobj : heap !! h = Some obj)
    (Hself : EventHandler.nextHandler obj = Some h)
    (Hother : EventHandler.handled_by (EventHandler.kind obj) event = None) :
  EventHandler.handleEvent fuel heap h event = EventHandler.Unfinished.
Proof.
  induction fuel as [|fuel IH]; [reflexivity|].
  simpl. rewrite Hobj, Hother, Hself. exact IH.
Qed.

Lemma self_chained_click_handler_never_returns :
  ((<[0 := EventHandler.setNext (Some 0) (EventHandler.make EventHandler.ClickHandler)]> ∅
     : gmap addr EventHandler.t) !! 0
   = Some (EventHandler.setNext (Some 0) (EventHandler.make EventHandler.ClickHandler)))
  /\ EventHandler.nextHandler
       (EventHandler.setNext (Some 0) (EventHandler.make EventHandler.ClickHandler))
     = Some 0
  /\ EventHandler.handled_by
       (EventHandler.kind
          (EventHandler.setNext (Some 0) (EventHandler.make EventHandler.ClickHandler)))
       "keypress" = None
  /\ EventHandler.handleEvent 1000
       (<[0 := EventHandler.setNext (Some 0) (EventHandler.make EventHandler.ClickHandler)]> ∅)
       0 "keypress"
     = EventHandler.Unfinished.
Proof.
  exact (conj eq_refl (conj eq_refl (conj eq_refl
    (self_chained_handler_never_returns
       (<[0 := EventHandler.setNext (Some 0) (EventHandler.make EventHandler.ClickHandler)]> ∅)
       0 _ "keypress" 1000 eq_refl eq_refl eq_refl)))).
Defined.

(** ** The builder *)

(** X24.  A builder left as it was made builds the document the
    [Document] constructor makes.  Whatever was set, the built document
    is new: empty root section, no observer, draft state, and it carries
    the values of the builder.  Of two calls of one setter the later
    counts, and setters of different properties can be called in either
    order. *)
Theorem builder_builds_new_document
    (b : DocumentBuilder.t) (p p0 h f : string) (t bo l r : Z) :
  DocumentBuilder.build DocumentBuilder.make = Document_new
  /\ snd (DocumentBuilder.build b) = snd Document_new
  /\ rootSection (fst (DocumentBuilder.build b)) = rootSection (fst Document_new)
  /\ observers (fst (DocumentBuilder.build b)) = []
  /\ currentState (fst (DocumentBuilder.build b)) = DraftState
  /\ fst (DocumentBuilder.build
            (DocumentBuilder.setFooter f (DocumentBuilder.setHeader h
               (DocumentBuilder.setMargins t bo l r (DocumentBuilder.setPageSize p b)))))
     = setProperties p t bo l r h f (fst Document_new)
  /\ DocumentBuilder.setPageSize p (DocumentBuilder.setPageSize p0 b)
     = DocumentBuilder.setPageSize p b
  /\ DocumentBuilder.setHeader h (DocumentBuilder.setMargins t bo l r
       (DocumentBuilder.setPageSize p b))
     = DocumentBuilder.setPageSize p (DocumentBuilder.setMargins t bo l r
         (DocumentBuilder.setHeader h b)).
Proof. repeat split. Qed.

(** ** Renderers *)





(** ** [clone], continued *)

Lemma Placed_clone_children_count (ch : list Placed.t) :
  Forall (fun o => forall n,
            snd (Placed.clone o n) = n + count_nodes (Placed.erase o)
            /\ length (Placed.owned (fst (Placed.clone o n))) = count_nodes (Placed.erase o))
         ch ->
  forall (acc : list Placed.t) (n : addr),
    snd (Placed.clone_children ch acc n)
    = n + sum_list (map count_nodes (map Placed.erase ch))
    /\ exists ch' : list Placed.t,
         fst (Placed.clone_children ch acc n) = acc ++ ch'
         /\ length (flat_map Placed.owned ch')
            = sum_list (map count_nodes (map Placed.erase ch)).
Proof.
  induction 1 as [|c cs Hc _ IH]; intros acc n; simpl.
  - split; [lia|]. exists []. rewrite app_nil_r. split; reflexivity.
  - destruct (Hc n) as [Hn Hl]. destruct (Placed.clone c n) as [c' n1]. simpl in Hn, Hl.
    destruct (IH (acc ++ [c']) n1) as (Hn' & cs' & Hfst & Hlen).
    split; [lia|]. exists (c' :: cs'). split.
    + rewrite Hfst, <- app_assoc. reflexivity.
    + simpl. rewrite length_app. lia.
Qed.

Lemma Placed_clone_count (o : Placed.t) :
  forall n,
    snd (Placed.clone o n) = n + count_nodes (Placed.erase o)
    /\ length (Placed.owned (fst (Placed.clone o n))) = count_nodes (Placed.erase o).
Proof.
  induction o as [a c f|a p|a r c|a ch name IH|a w IH|a w IH|a p r|a x y w h]
    using Placed_tree_ind; intros n; try (simpl; split; lia).
  - rewrite Placed_clone_Section. cbn [fst snd].
    destruct (Placed_clone_children_count ch IH [] (S n)) as (Hn & ch' & Hfst & Hlen).
    simpl in Hfst. rewrite Hn, Hfst. simpl. split; lia.
  - simpl. destruct (IH n) as [Hn Hl]. destruct (Placed.clone w n) as [w' n1].
    simpl in *. split; lia.
  - simpl. destruct (IH n) as [Hn Hl]. destruct (Placed.clone w n) as [w' n1].
    simpl in *. split; lia.
Qed.

(** X26.  A [clone] makes one object for every node of the tree, the
    images held by proxies not counted: the allocation counter moves on
    by the number of nodes, and the objects of the clone are exactly the
    addresses handed out in between, each used once. *)
Theorem clone_makes_one_object_per_node (o : Placed.t) (next : addr) :
  snd (Placed.clone o next) = next + count_nodes (Placed.erase o)
  /\ Placed.owned (fst (Placed.clone o next)) ≡ₚ seq next (count_nodes (Placed.erase o)).
Proof.
  destruct (Placed_clone_count o next) as [Hn Hl].
  destruct (Placed_clone_fresh o next) as (_ & _ & Hown & Hnd & _).
  split; [exact Hn|].
  apply submseteq_length_Permutation.
  - apply NoDup_submseteq; [exact Hnd|].
    intros a Ha. rewrite Forall_forall in Hown. specialize (Hown a Ha).
    apply elem_of_seq. lia.
  - rewrite length_seq, Hl. reflexivity.
Qed.

Lemma count_nodes_clone (e : DocumentElement) : count_nodes (clone e) = count_nodes e.
Proof.
  induction e as [c f|p|r c|ch name IH|w IH|w IH|p r|x y w h]
    using DocumentElement_tree_ind; try reflexivity.
  - rewrite clone_Section. simpl. do 2 f_equal.
    induction IH as [|c cs Hc _ IHcs]; [reflexivity|].
    simpl. rewrite Hc, IHcs. reflexivity.
  - simpl. rewrite IH. reflexivity.
  - simpl. rewrite IH. reflexivity.
Qed.

Lemma listing_types_clone (e : DocumentElement) :
  map getType (listing (clone e)) = map getType (listing e).
Proof.
  induction e as [c f|p|r c|ch name IH|w IH|w IH|p r|x y w h]
    using DocumentElement_tree_ind; try reflexivity.
  - rewrite clone_Section. simpl. f_equal.
    induction IH as [|c cs Hc _ IHcs]; [reflexivity|].
    simpl. rewrite !map_app, Hc, IHcs. reflexivity.
  - simpl. rewrite getType_clone. reflexivity.
  - simpl. rewrite getType_clone. reflexivity.
Qed.

(** X27.  A clone has the shape of its original: as many nodes, the same
    type, and an iterator over a document holding the clone lists
    elements of the same types in the same order as over a document
    holding the original. *)
Theorem clone_keeps_shape (e : DocumentElement) (d : Document) :
  count_nodes (clone e) = count_nodes e
  /\ getType (clone e) = getType e
  /\ map getType (DocumentIterator.elements
                    (DocumentIterator.make (fst (addElement (clone e) d))))
     = map getType (DocumentIterator.elements
                      (DocumentIterator.make (fst (addElement e d)))).
Proof.
  split; [apply count_nodes_clone|]. split; [apply getType_clone|].
  unfold DocumentIterator.make. simpl. rewrite !collectElements_listing. simpl.
  unfold Section_add. rewrite !flat_map_app, !map_app. simpl. rewrite !app_nil_r.
  rewrite listing_types_clone. reflexivity.
Qed.

(** ** Adding elements *)

Lemma notified_app (o : addr) (t1 t2 : list Event) :
  notified o (t1 ++ t2) = notified o t1 + notified o t2.
Proof.
  induction t1 as [|ev t1 IH]; [reflexivity|].
  destruct ev; simpl; rewrite IH; lia.
Qed.

Lemma notified_notify_each (o : addr) (os : list addr) (d : Document) :
  notified o (notify_each os d) = length (filter (fun o' => o' = o) os).
Proof.
  induction os as [|o' os IH]; [reflexivity|].
  simpl. rewrite IH. destruct (decide (o' = o)) as [->|Hne].
  - rewrite filter_cons_True by reflexivity. reflexivity.
  - rewrite filter_cons_False by exact Hne. reflexivity.
Qed.

Lemma addElements_cons (e : DocumentElement) (es : list DocumentElement) (d : Document) :
  addElements (e :: es) d
  = (fst (addElements es (fst (addElement e d))),
     snd (addElement e d) ++ snd (addElements es (fst (addElement e d)))).
Proof.
  change (addElements (e :: es) d)
    with (let '(d2, t2) := addElements es (fst (addElement e d)) in
          (d2, snd (addElement e d) ++ t2)).
  destruct (addElements es (fst (addElement e d))); reflexivity.
Qed.

Lemma addElements_spec (es : list DocumentElement) :
  forall d : Document,
    children (rootSection (fst (addElements es d))) = children (rootSection d) ++ es
    /\ observers (fst (addElements es d)) = observers d
    /\ currentState (fst (addElements es d)) = currentState d
    /\ forall o, notified o (snd (addElements es d))
                 = length es * length (filter (fun o' => o' = o) (observers d)).
Proof.
  induction es as [|e es IH]; intros d.
  - simpl. rewrite app_nil_r. repeat split.
  - rewrite addElements_cons. cbn [fst snd].
    destruct (IH (fst (addElement e d))) as (Hc & Ho & Hs & Hn).
    rewrite Hc, Ho, Hs. repeat split.
    + simpl. unfold Section_add. rewrite <- app_assoc. reflexivity.
    + intros o. rewrite notified_app, Hn.
      unfold addElement at 1. cbn [snd]. unfold notifyObservers.
      rewrite notified_notify_each. simpl. lia.
Qed.

(** X28.  Elements added one after the other stand in the root section
    in the order they were added, behind what was there; observers and
    state stay, and an observer attached once hears of every one of the
    additions once. *)
Theorem addElements_keeps_insertion_order
    (es : list DocumentElement) (d : Document) (o : addr) :
  children (rootSection (fst (addElements es d))) = children (rootSection d) ++ es
  /\ observers (fst (addElements es d)) = observers d
  /\ currentState (fst (addElements es d)) = currentState d
  /\ notified o (snd (addElements es d))
     = length es * length (filter (fun o' => o' = o) (observers d))
  /\ notified o (snd (addElements es (attach o (detach o d)))) = length es.
Proof.
  destruct (addElements_spec es d) as (Hc & Ho & Hs & Hn).
  repeat split; try assumption; [apply Hn|].
  destruct (addElements_spec es (attach o (detach o d))) as (_ & _ & _ & Hn').
  rewrite Hn'. unfold attach, detach. simpl.
  rewrite filter_app, filter_cons_True by reflexivity. rewrite filter_nil.
  rewrite length_app. simpl.
  assert (Hz : filter (fun o' => o' = o) (filter (fun o' => o' <> o) (observers d)) = []).
  { clear. induction (observers d) as [|x l IHl]; [reflexivity|].
    destruct (decide (x = o)) as [->|Hne].
    - rewrite (filter_cons_False (fun o' => o' <> o)) by (intros H; apply H; reflexivity).
      exact IHl.
    - rewrite (filter_cons_True (fun o' => o' <> o)) by exact Hne.
      rewrite filter_cons_False by exact Hne. exact IHl. }
  rewrite Hz. simpl. lia.
Qed.

(** X29.  [executeCommand] of a new add command on any history puts the
    element at the end of the root section, notifies every observer once,
    in order, after the line of the command, and leaves on the undo stack
    a command that is executed and holds no element but a clone of it;
    the redo stack is empty. *)
Theorem executeCommand_add_appends_and_notifies
    (h : CommandHistory.t AddElementCommand.t) (d : Document) (X : DocumentElement) :
  let r := CommandHistory.executeCommand (AddElementCommand.make (Some X)) h d in
  children (rootSection (snd (fst r))) = children (rootSection d) ++ [X]
  /\ snd r = EvPrint "[Command] Executing: Add Element"
             :: map (fun o => EvChanged o (snd (fst r))) (observers d)
  /\ CommandHistory.undoStack (fst (fst r))
     = AddElementCommand.mk None (Some (clone X)) true :: CommandHistory.undoStack h
  /\ CommandHistory.redoStack (fst (fst r)) = [].
Proof.
  simpl. unfold CommandHistory.executeCommand. simpl.
  repeat split.
  - unfold notifyObservers. simpl. rewrite notify_each_map. reflexivity.
  - apply pop_all_nil.
Qed.
